(** * NGramMarkovChain: a shallow embedding of [models/smoothed_n_gram.py]

    The development follows the Python class [NGramMarkovChain] method by
    method.  Conventions of the embedding:

    - a text is a [string], read as a sequence of code points below 256;
      [lower_char] and [is_word_char] classify them the way [str.lower] and
      the [\w] class of [re] do on that block;
    - [n] is a number of words and is a [nat]; [max_length] is a [Z], since
      the generation loop runs over [range(max_length - len(sentence))];
    - [alpha] and the probabilities are exact rationals ([Q]);
    - [transitions] (a [defaultdict] of [defaultdict(int)]) is a [gmap] of
      [gmap]s, [vocabulary] (a [set]) is a [gset], [starting_ngrams] is a
      list;
    - [print], the module [random] and Python exceptions are the effects of
      a small state-and-error monad [M] over a [world] that holds the
      entropy tape of the generator and the lines written to stdout. *)

From Stdlib Require Import ZArith QArith Lia Ascii.
From stdpp Require Import gmap strings list fin_maps pretty.

Close Scope Q_scope.
Open Scope string_scope.
Open Scope Z_scope.
Open Scope list_scope.
Open Scope nat_scope.

(** ** Effects *)

Inductive exn : Set :=
  | IndexError
  | ZeroDivisionError
  | ValueError.

Inductive res (A : Type) : Type :=
  | Ret (a : A)
  | Raise (e : exn).
Arguments Ret {A} a.
Arguments Raise {A} e.

(** [entropy] is the tape of raw draws of the generator, [cursor] the number
    of draws consumed so far, [stdout] the lines printed so far. *)
Record world : Type := World {
  entropy : nat -> N;
  cursor : nat;
  stdout : list string
}.

Definition M (A : Type) : Type := world -> res A * world.

Definition ret {A} (a : A) : M A := fun w => (Ret a, w).

Definition raise {A} (e : exn) : M A := fun w => (Raise e, w).

Definition bind {A B} (c : M A) (k : A -> M B) : M B :=
  fun w =>
    match c w with
    | (Ret a, w') => k a w'
    | (Raise e, w') => (Raise e, w')
    end.

Notation "x <- c ;; k" := (bind c (fun x => k))
  (at level 100, c at next level, right associativity).
Notation "c ;;; k" := (bind c (fun _ => k))
  (at level 100, right associativity).

Definition lift {A} (r : res A) : M A := fun w => (r, w).

Definition print (line : string) : M unit :=
  fun w => (Ret tt, World (entropy w) (cursor w) (stdout w ++ [line])).

Definition draw : M N :=
  fun w => (Ret (entropy w (cursor w)), World (entropy w) (S (cursor w)) (stdout w)).

(** ** The module [random] *)

(** [random.random()]: a float [k / 2^53] with [0 <= k < 2^53]. *)
Definition random_random : M Q :=
  d <- draw ;; ret (Z.of_N (d mod 2 ^ 53) # 2 ^ 53)%Q.

(** [Random._randbelow(k)] for [k > 0]. *)
Definition randbelow (k : nat) : M nat :=
  d <- draw ;; ret (N.to_nat (d mod N.of_nat k)).

(** [random.choice(seq)] *)
Definition random_choice {A} (seq : list A) : M A :=
  match seq with
  | [] => raise IndexError
  | _ =>
      i <- randbelow (length seq) ;;
      match seq !! i with
      | Some x => ret x
      | None => raise IndexError
      end
  end.

(** [itertools.accumulate(weights)] *)
Fixpoint accumulate_from (acc : Q) (weights : list Q) : list Q :=
  match weights with
  | [] => []
  | x :: xs => (acc + x)%Q :: accumulate_from (acc + x)%Q xs
  end.

Definition accumulate (weights : list Q) : list Q :=
  match weights with
  | [] => []
  | x :: xs => x :: accumulate_from x xs
  end.

(** [bisect.bisect_right(a, x, lo, hi)]; the loop halves [hi - lo], so
    [hi - lo] rounds of fuel are enough (lemma [bisect_fuel]). *)
Fixpoint bisect_loop (fuel : nat) (a : list Q) (x : Q) (lo hi : nat) : nat :=
  match fuel with
  | O => lo
  | S fuel' =>
      if lo <? hi then
        let mid := (lo + hi) / 2 in
        if Qlt_le_dec x (nth mid a 0%Q)
        then bisect_loop fuel' a x lo mid
        else bisect_loop fuel' a x (mid + 1) hi
      else lo
  end.

Definition bisect (a : list Q) (x : Q) (lo hi : nat) : nat :=
  bisect_loop (hi - lo) a x lo hi.

(** [random.choices(population, weights=weights, k=1)[0]] *)
Definition random_choices {A} (population : list A) (weights : list Q) : M A :=
  let cum_weights := accumulate weights in
  if negb (length cum_weights =? length population) then raise ValueError
  else
    match last cum_weights with
    | None => raise IndexError
    | Some total =>
        if Qle_bool total 0 then raise ValueError
        else
          u <- random_random ;;
          let hi := length population - 1 in
          match population !! bisect cum_weights (u * total)%Q 0 hi with
          | Some x => ret x
          | None => raise IndexError
          end
    end.

(** ** Strings *)

(** [str.lower] on one code point below 256: [A-Z], and the capital letters
    of the Latin-1 block (192-214 and 216-222), move up by 32. *)
Definition lower_char (c : ascii) : ascii :=
  let k := nat_of_ascii c in
  if ((65 <=? k) && (k <=? 90)) || ((192 <=? k) && (k <=? 214))
     || ((216 <=? k) && (k <=? 222))
  then ascii_of_nat (k + 32) else c.

Fixpoint lower (s : string) : string :=
  match s with
  | EmptyString => EmptyString
  | String c s' => String (lower_char c) (lower s')
  end.

(** The class [\w] of [re] on a [str] pattern: the alphanumeric code points
    and the underscore. *)
Definition is_word_char (c : ascii) : bool :=
  let k := nat_of_ascii c in
  ((48 <=? k) && (k <=? 57)) || ((65 <=? k) && (k <=? 90)) || (k =? 95)
  || ((97 <=? k) && (k <=? 122))
  || (k =? 170) || (k =? 178) || (k =? 179) || (k =? 181) || (k =? 185)
  || (k =? 186) || ((188 <=? k) && (k <=? 190))
  || ((192 <=? k) && (k <=? 214)) || ((216 <=? k) && (k <=? 246))
  || ((248 <=? k) && (k <=? 255)).

(** [re.findall(r"\b\w+\b", s)]: the maximal runs of word characters, from
    left to right; [run] is the run being read. *)
Fixpoint findall_words_from (run : string) (s : string) : list string :=
  match s with
  | EmptyString => if String.eqb run "" then [] else [run]
  | String c s' =>
      if is_word_char c then findall_words_from (run +:+ String c "") s'
      else if String.eqb run "" then findall_words_from "" s'
      else run :: findall_words_from "" s'
  end.

Definition findall_words (s : string) : list string := findall_words_from "" s.

(** [sep.join(l)] is [String.concat sep l]. *)
Definition join (sep : string) (l : list string) : string := String.concat sep l.

(** The number of space-separated tokens of a string: its maximal runs of
    characters other than the space. *)
Fixpoint count_tokens_from (inside : bool) (s : string) : nat :=
  match s with
  | EmptyString => 0
  | String c s' =>
      if Ascii.eqb c " "%char then count_tokens_from false s'
      else (if inside then 0 else 1) + count_tokens_from true s'
  end.

Definition count_tokens (s : string) : nat := count_tokens_from false s.

(** The Python slice [l[-k:]] for [k >= 0]: the last [k] elements, all of
    [l] when it has fewer, and all of [l] for [k = 0], since [l[-0:]] is
    [l[0:]]. *)
Definition last_n {A} (k : nat) (l : list A) : list A :=
  if k =? 0 then l else drop (length l - k) l.

(** ** The class [NGramMarkovChain] *)

Record NGramMarkovChain : Type := Build {
  n : nat;
  alpha : Q;
  transitions : gmap (list string) (gmap string Z);
  starting_ngrams : list (list string);
  vocabulary : gset string
}.

(** [__init__(self, n, alpha)] *)
Definition init (n0 : nat) (alpha0 : Q) : NGramMarkovChain :=
  Build n0 alpha0 ∅ [] ∅.

(** [_get_ngrams(self, words)]:
    [[tuple(words[i : i + n]) for i in range(len(words) - n + 1)]] *)
Definition _get_ngrams (self : NGramMarkovChain) (words : list string)
  : list (list string) :=
  map (fun i => take (n self) (drop i words))
      (seq 0 (length words + 1 - n self)).

(** [table[current_ngram][next_word] += 1] on the nested [defaultdict]: a
    missing row is created empty, a missing count starts at 0. *)
Definition increment (table : gmap (list string) (gmap string Z))
    (current_ngram : list string) (next_word : string)
  : gmap (list string) (gmap string Z) :=
  let row := default ∅ (table !! current_ngram) in
  <[current_ngram := <[next_word := (default 0 (row !! next_word) + 1)%Z]> row]> table.

(** The body of the loop [for i in range(len(ngrams) - 1)] of [train], run
    over the indices [indices]; an index out of range raises. *)
Fixpoint train_loop (self : NGramMarkovChain) (ngrams : list (list string))
    (words : list string) (indices : list nat)
    (table : gmap (list string) (gmap string Z))
  : res (gmap (list string) (gmap string Z)) :=
  match indices with
  | [] => Ret table
  | i :: rest =>
      match ngrams !! i with
      | None => Raise IndexError
      | Some current_ngram =>
          match words !! (i + n self) with
          | None => Raise IndexError
          | Some next_word =>
              train_loop self ngrams words rest
                (increment table current_ngram next_word)
          end
      end
  end.

Definition train_warning (self : NGramMarkovChain) : string :=
  "Warning: Text too short to train " +:+ pretty (n self) +:+ "-gram model".

(** [train(self, text)]; the result is the model after the call. *)
Definition train (self : NGramMarkovChain) (text : string) : M NGramMarkovChain :=
  let words := findall_words (lower text) in
  let vocabulary' := vocabulary self ∪ list_to_set words in
  if length words <? n self + 1 then
    print (train_warning self) ;;;
    ret (Build (n self) (alpha self) (transitions self)
               (starting_ngrams self) vocabulary')
  else
    let starting_ngrams' := starting_ngrams self ++ [take (n self) words] in
    let ngrams := _get_ngrams self words in
    transitions' <- lift (train_loop self ngrams words
                            (seq 0 (length ngrams - 1)) (transitions self)) ;;
    ret (Build (n self) (alpha self) transitions' starting_ngrams' vocabulary').

(** [sum(word_counts.values())] *)
Definition total_count (word_counts : gmap string Z) : Z :=
  map_fold (fun _ c acc => (c + acc)%Z) 0%Z word_counts.

(** One round of the loop [for word in self.vocabulary] of
    [predict_next_word]: the entry of [probabilities] for [word]. *)
Definition probability (self : NGramMarkovChain) (word_counts : gmap string Z)
    (word : string) : res Q :=
  let count := default 0%Z (word_counts !! word) in
  let denominator :=
    (inject_Z (total_count word_counts)
     + alpha self * inject_Z (Z.of_nat (size (vocabulary self))))%Q in
  if Qeq_bool denominator 0 then Raise ZeroDivisionError
  else Ret ((inject_Z count + alpha self) / denominator)%Q.

Fixpoint probabilities_loop (self : NGramMarkovChain)
    (word_counts : gmap string Z) (vocab : list string)
  : res (list (string * Q)) :=
  match vocab with
  | [] => Ret []
  | word :: rest =>
      match probability self word_counts word with
      | Raise e => Raise e
      | Ret p =>
          match probabilities_loop self word_counts rest with
          | Raise e => Raise e
          | Ret ps => Ret ((word, p) :: ps)
          end
      end
  end.

(** The dictionary [probabilities], in the iteration order of the set. *)
Definition probabilities (self : NGramMarkovChain) (word_counts : gmap string Z)
  : res (list (string * Q)) :=
  probabilities_loop self word_counts (elements (vocabulary self)).

(** The branch [predict_next_word] takes on a context. *)
Inductive branch : Type :=
  | TooShort
  | UnseenFromVocabulary
  | UnseenFromStart
  | UnseenAbsent
  | Seen (context : list string) (word_counts : gmap string Z).

Definition predict_branch (self : NGramMarkovChain) (context : list string)
  : branch :=
  if length context <? n self then TooShort
  else
    let context :=
      if n self <? length context then last_n (n self) context else context in
    match transitions self !! context with
    | None =>
        if negb (bool_decide (vocabulary self = ∅)) then UnseenFromVocabulary
        else if negb (bool_decide (starting_ngrams self = [])) then UnseenFromStart
        else UnseenAbsent
    | Some word_counts => Seen context word_counts
    end.

Definition context_warning (self : NGramMarkovChain) : string :=
  "Warning: Context needs " +:+ pretty (n self) +:+ " words".

(** [predict_next_word(self, context)]; [None] is Python's [None]. *)
Definition predict_next_word (self : NGramMarkovChain) (context : list string)
  : M (option string) :=
  match predict_branch self context with
  | TooShort =>
      print (context_warning self) ;;;
      ret None
  | UnseenFromVocabulary =>
      word <- random_choice (elements (vocabulary self)) ;;
      ret (Some word)
  | UnseenFromStart =>
      random_start <- random_choice (starting_ngrams self) ;;
      match last random_start with
      | Some word => ret (Some word)
      | None => raise IndexError
      end
  | UnseenAbsent => ret None
  | Seen _ word_counts =>
      probs <- lift (probabilities self word_counts) ;;
      word <- random_choices (map fst probs) (map snd probs) ;;
      ret (Some word)
  end.

(** The loop [while len(sentence) < self.n] that pads a short seed; it runs
    [n - len(sentence)] times, which is [rounds]. *)
Fixpoint pad_seed (self : NGramMarkovChain) (rounds : nat)
    (sentence : list string) : M (list string) :=
  match rounds with
  | O => ret sentence
  | S rounds' =>
      random_start <- random_choice (starting_ngrams self) ;;
      match random_start !! length sentence with
      | None => raise IndexError
      | Some word => pad_seed self rounds' (sentence ++ [word])
      end
  end.

(** The loop [for _ in range(max_length - len(sentence))] with its [break]. *)
Fixpoint extend (self : NGramMarkovChain) (rounds : nat)
    (sentence : list string) : M (list string) :=
  match rounds with
  | O => ret sentence
  | S rounds' =>
      let current_context := last_n (n self) sentence in
      next_word <- predict_next_word self current_context ;;
      match next_word with
      | None => ret sentence
      | Some word => extend self rounds' (sentence ++ [word])
      end
  end.

(** The outcome of the seeding phase of [generate_sentence]: an early
    [return] of a sentinel, or the initial [sentence]. *)
Inductive seeded : Type :=
  | Return (s : string)
  | Sentence (sentence : list string).

Definition seed_sentence (self : NGramMarkovChain)
    (start_words : option (list string)) : M seeded :=
  if bool_decide (transitions self = ∅) then ret (Return "Model not trained yet.")
  else
    match start_words with
    | None =>
        if bool_decide (starting_ngrams self = [])
        then ret (Return "Model not trained properly.")
        else
          start_ngram <- random_choice (starting_ngrams self) ;;
          ret (Sentence start_ngram)
    | Some seed =>
        if length seed <? n self then
          if bool_decide (starting_ngrams self = [])
          then ret (Return "Model not trained properly.")
          else
            sentence <- pad_seed self (n self - length seed) seed ;;
            ret (Sentence sentence)
        else
          let seed := if n self <? length seed then last_n (n self) seed else seed in
          ret (Sentence seed)
    end.

(** [generate_sentence(self, start_words, max_length)]; [start_words] is
    [None] when the argument is omitted. *)
Definition generate_sentence (self : NGramMarkovChain)
    (start_words : option (list string)) (max_length : Z) : M string :=
  seeded <- seed_sentence self start_words ;;
  match seeded with
  | Return s => ret s
  | Sentence sentence =>
      sentence <- extend self (Z.to_nat (max_length - Z.of_nat (length sentence)))
                    sentence ;;
      ret (join " " sentence)
  end.

(** The states a model goes through: construction, then calls of [train]. *)
Inductive reachable : NGramMarkovChain -> Prop :=
  | reachable_init n0 alpha0 : reachable (init n0 alpha0)
  | reachable_train self text w self' w' :
      reachable self ->
      train self text w = (Ret self', w') ->
      reachable self'.

(** A world to run examples in: a tape of draws and an empty stdout. *)
Definition world0 (tape : nat -> N) : world := World tape 0 [].

(** ** Notions used by the statements *)

Fixpoint no_space (s : string) : bool :=
  match s with
  | EmptyString => true
  | String c s' => negb (Ascii.eqb c " "%char) && no_space s'
  end.

Fixpoint word_string (s : string) : bool :=
  match s with
  | EmptyString => true
  | String c s' => is_word_char c && word_string s'
  end.

(** What [findall_words] produces: a token that is not empty and has no
    space. *)
Definition plain_token (s : string) : Prop := s ≠ "" ∧ no_space s = true.

(** A token without a space; [join] never makes two of it. *)
Definition spaceless (s : string) : Prop := no_space s = true.

(** The count the table holds for a context and a token, 0 when absent. *)
Definition count (table : gmap (list string) (gmap string Z))
    (context : list string) (word : string) : Z :=
  default 0%Z (default ∅ (table !! context) !! word).

(** Following the specification of [train]: the transitions of a token
    sequence are, for each index [i] from [0] to [L - k - 1], the pair of
    the [k]-gram that starts at [i] and the token at index [i + k]. *)
Definition spec_transitions (k : nat) (words : list string)
  : list (list string * string) :=
  map (fun i => (take k (drop i words), nth (i + k) words ""))
      (seq 0 (length words - k)).

Definition record (table : gmap (list string) (gmap string Z))
    (pairs : list (list string * string)) : gmap (list string) (gmap string Z) :=
  foldl (fun t p => increment t p.1 p.2) table pairs.

(** A well-formed table for context length [k] over the vocabulary [vocab]:
    keys are [k]-grams, no row is empty, counts are positive, and every
    follower is in the vocabulary. *)
Definition table_ok (k : nat) (vocab : gset string)
    (table : gmap (list string) (gmap string Z)) : Prop :=
  forall context row, table !! context = Some row ->
    length context = k ∧ row ≠ ∅ ∧
    forall word c, row !! word = Some c -> (1 <= c)%Z ∧ word ∈ vocab.

Record invariant (self : NGramMarkovChain) : Prop := {
  inv_table : table_ok (n self) (vocabulary self) (transitions self);
  inv_start_length : Forall (fun g => length g = n self) (starting_ngrams self);
  inv_start_vocabulary : starting_ngrams self ≠ [] -> vocabulary self ≠ ∅;
  inv_start_trained : transitions self ≠ ∅ -> starting_ngrams self ≠ [];
  inv_plain : forall word, word ∈ vocabulary self -> plain_token word;
  inv_start_tokens :
    Forall (Forall (fun word => word ∈ vocabulary self)) (starting_ngrams self)
}.

(** The world after one draw. *)
Definition advance (w : world) : world :=
  World (entropy w) (S (cursor w)) (stdout w).

(** Run the monadic plumbing of a goal. *)
Ltac run := cbv [bind ret raise lift print draw randbelow random_random].

Definition Qsum (l : list Q) : Q := foldr Qplus 0%Q l.

Definition Zsum (l : list Z) : Z := foldr Z.add 0%Z l.

(** [total + alpha * |Vocabulary|] *)
Definition denominator (self : NGramMarkovChain) (word_counts : gmap string Z) : Q :=
  (inject_Z (total_count word_counts)
   + alpha self * inject_Z (Z.of_nat (size (vocabulary self))))%Q.

(** [(count(w) + alpha) / (total + alpha * |Vocabulary|)], with [count(w)]
    0 for a token that never followed the context. *)
Definition smoothed (self : NGramMarkovChain) (word_counts : gmap string Z)
    (word : string) : Q :=
  ((inject_Z (default 0%Z (word_counts !! word)) + alpha self)
   / denominator self word_counts)%Q.

Definition tape0 : nat -> N := fun _ => 0%N.

Definition cat_text : string := "the cat sat. the cat ran.".

(** The model after [NGramMarkovChain(n=2, alpha=1.0).train(cat_text)]. *)
Definition cat_model : NGramMarkovChain :=
  Build 2 1
    {[ ["the"; "cat"] := {[ "sat" := 1%Z; "ran" := 1%Z ]};
       ["cat"; "sat"] := {[ "the" := 1%Z ]};
       ["sat"; "the"] := {[ "cat" := 1%Z ]} ]}
    [ ["the"; "cat"] ]
    {[ "the"; "cat"; "sat"; "ran" ]}.

(** The table the specification lists for that example. *)
Definition spec_cat_table : gmap (list string) (gmap string Z) :=
  {[ ["the"; "cat"] := {[ "sat" := 1%Z; "ran" := 1%Z ]};
     ["cat"; "sat"] := {[ "the" := 1%Z ]};
     ["sat"; "the"] := {[ "cat" := 1%Z ]};
     ["cat"; "ran"] := ∅ ]}.

(** ** The file wrapper and the script *)

(** [train_on_file(self, file_path)].  [files] is the file system: [files p]
    is the text that [open(p, "r", encoding="utf-8")] and [read()] yield, and
    [None] when one of them raises.  The result is the model after the call
    and the flag returned.  [except Exception] would also swallow an
    exception of [train]; [train] raises none (lemma [train_returns]). *)
Definition train_on_file (files : string -> option string)
    (self : NGramMarkovChain) (file_path : string)
  : M (NGramMarkovChain * bool) :=
  match files file_path with
  | None => ret (self, false)
  | Some text =>
      fun w =>
        match train self text w with
        | (Ret self', w') => (Ret (self', true), w')
        | (Raise _, w') => (Ret (self, false), w')
        end
  end.

Definition dataset_path : string :=
  "conversation_datasets/cleaned_files/cleaned_dailydialog.txt".

(** The script under [if __name__ == "__main__"]. *)
Definition main (files : string -> option string) : M unit :=
  let model := init 3 (1 # 10000)%Q in
  trained <- train_on_file files model dataset_path ;;
  sentence <- generate_sentence (fst trained) None 25 ;;
  print sentence.

(** ** Notions used by the further properties *)

(** A token as the tokenizer of [train] makes them: not empty, word
    characters only, unchanged by [lower]. *)
Definition word_token (t : string) : Prop :=
  t ≠ "" ∧ word_string t = true ∧ lower t = t.

(** The number of positions [i < L - k] at which the [k]-gram [context]
    starts in [words]. *)
Definition occurrences (k : nat) (words : list string) (context : list string)
  : nat :=
  length (filter (fun p => p.1 = context) (spec_transitions k words)).

(** [sum(self.transitions[context].values())], 0 for a context that is not
    a key. *)
Definition row_total (table : gmap (list string) (gmap string Z))
    (context : list string) : Z :=
  total_count (default ∅ (table !! context)).

(** The model after [NGramMarkovChain(n=2, alpha=0).train(cat_text)]. *)
Definition cat_model_unsmoothed : NGramMarkovChain :=
  Build 2 0 (transitions cat_model) (starting_ngrams cat_model)
    (vocabulary cat_model).

(** How the seeding phase of [generate_sentence] builds the initial
    sentence [initial] from [start_words]: a Starting Context when there is
    no seed, a short seed followed by padding tokens, or the last [n]
    tokens of a seed that is long enough. *)
Definition seeded_from (self : NGramMarkovChain)
    (start_words : option (list string)) (initial : list string) : Prop :=
  match start_words with
  | None => initial ∈ starting_ngrams self
  | Some seed =>
      if length seed <? n self
      then exists pad, initial = seed ++ pad
                       ∧ Forall (fun t => t ∈ vocabulary self) pad
      else initial = last_n (n self) seed
  end.

(** * Properties *)

(** ** Tokens *)

Lemma word_char_not_space c : is_word_char c = true -> Ascii.eqb c " "%char = false.
Proof.
  intros Hc. destruct (Ascii.eqb_spec c " "%char) as [-> | _]; [ | reflexivity ].
  vm_compute in Hc. discriminate.
Qed.

Lemma word_string_no_space s : word_string s = true -> no_space s = true.
Proof.
  induction s as [ | c s IH ]; simpl; [ reflexivity | ].
  intros [Hc Hs]%andb_true_iff.
  rewrite (word_char_not_space c Hc). simpl. auto.
Qed.

Lemma word_string_app s t :
  word_string (s +:+ t) = word_string s && word_string t.
Proof.
  induction s as [ | c s IH ]; simpl; [ reflexivity | ].
  rewrite IH. apply andb_assoc.
Qed.

Lemma app_not_empty s c : s +:+ String c "" ≠ "".
Proof. destruct s; discriminate. Qed.

Lemma findall_words_from_tokens s : forall run,
  word_string run = true ->
  Forall (fun t => t ≠ "" ∧ word_string t = true) (findall_words_from run s).
Proof.
  induction s as [ | c s IH ]; intros run Hrun; simpl.
  - destruct (String.eqb_spec run ""); constructor; auto.
  - destruct (is_word_char c) eqn:Hc.
    + apply IH. rewrite word_string_app, Hrun. simpl. now rewrite Hc.
    + destruct (String.eqb_spec run "").
      * apply IH. reflexivity.
      * constructor; [ auto | apply IH; reflexivity ].
Qed.

Lemma findall_words_plain s : Forall plain_token (findall_words s).
Proof.
  eapply Forall_impl; [ apply (findall_words_from_tokens s ""); reflexivity | ].
  intros t [Hne Hw]. split; [ exact Hne | now apply word_string_no_space ].
Qed.

Lemma plain_token_spaceless s : plain_token s -> spaceless s.
Proof. now intros [_ Hs]. Qed.

Lemma count_tokens_from_inside s rest :
  spaceless s ->
  count_tokens_from true (s +:+ String " "%char rest)
  = count_tokens_from false rest.
Proof.
  unfold spaceless. induction s as [ | c s IH ]; intros Hs; [ reflexivity | ].
  simpl in Hs. apply andb_true_iff in Hs as [Hc Hs].
  apply negb_true_iff in Hc.
  change (String c s +:+ String " "%char rest)
    with (String c (s +:+ String " "%char rest)).
  simpl. rewrite Hc. now apply IH.
Qed.

Lemma count_tokens_from_app s rest inside :
  spaceless s ->
  count_tokens_from inside (s +:+ String " "%char rest)
  <= 1 + count_tokens_from false rest.
Proof.
  intros Hs. destruct s as [ | c s ].
  - change ("" +:+ String " "%char rest) with (String " "%char rest).
    simpl. lia.
  - unfold spaceless in Hs. simpl in Hs. apply andb_true_iff in Hs as [Hc Hs].
    apply negb_true_iff in Hc.
    change (String c s +:+ String " "%char rest)
      with (String c (s +:+ String " "%char rest)).
    simpl. rewrite Hc, (count_tokens_from_inside s rest Hs).
    destruct inside; lia.
Qed.

Lemma count_tokens_from_spaceless s : forall inside,
  spaceless s -> count_tokens_from inside s <= 1.
Proof.
  unfold spaceless.
  induction s as [ | c s IH ]; intros inside Hs; simpl; [ lia | ].
  simpl in Hs. apply andb_true_iff in Hs as [Hc Hs].
  apply negb_true_iff in Hc. rewrite Hc.
  specialize (IH true Hs). destruct inside; [ lia | ].
  assert (count_tokens_from true s = 0); [ | lia ].
  clear IH. induction s as [ | c' s IH ]; simpl; [ reflexivity | ].
  simpl in Hs. apply andb_true_iff in Hs as [Hc' Hs].
  apply negb_true_iff in Hc'. rewrite Hc'. simpl. auto.
Qed.

(** Joining spaceless tokens with single spaces yields at most as many
    space-separated tokens as were joined. *)
Lemma count_tokens_join l :
  Forall spaceless l -> count_tokens (join " " l) <= length l.
Proof.
  unfold count_tokens, join.
  induction 1 as [ | t l Hs Hl IH ]; [ simpl; lia | ].
  destruct l as [ | t' l' ].
  - simpl. now apply count_tokens_from_spaceless.
  - change (String.concat " " (t :: t' :: l'))
      with (t +:+ String " "%char (String.concat " " (t' :: l'))).
    pose proof (count_tokens_from_app t (String.concat " " (t' :: l')) false Hs).
    simpl length in *. lia.
Qed.

(** ** Training *)

Lemma count_increment table c w c' w' :
  count (increment table c w) c' w'
  = (count table c' w' + if bool_decide (c = c' ∧ w = w') then 1 else 0)%Z.
Proof.
  unfold count, increment.
  destruct (decide (c = c')) as [-> | Hc].
  - rewrite lookup_insert_eq. simpl.
    destruct (decide (w = w')) as [-> | Hw].
    + rewrite lookup_insert_eq. simpl.
      rewrite bool_decide_eq_true_2 by done. reflexivity.
    + rewrite lookup_insert_ne by done.
      rewrite bool_decide_eq_false_2 by (intros [_ ?]; done). lia.
  - rewrite lookup_insert_ne by done.
    rewrite bool_decide_eq_false_2 by (intros [? _]; done). lia.
Qed.

Lemma _get_ngrams_length self words :
  length (_get_ngrams self words) = length words + 1 - n self.
Proof. unfold _get_ngrams. now rewrite length_map, length_seq. Qed.

Lemma _get_ngrams_lookup self words i :
  i < length words + 1 - n self ->
  _get_ngrams self words !! i = Some (take (n self) (drop i words)).
Proof.
  intros Hi. unfold _get_ngrams.
  rewrite list_lookup_fmap, lookup_seq_lt by assumption. reflexivity.
Qed.

Lemma train_loop_record self words indices : forall table,
  Forall (fun i => i + n self < length words) indices ->
  train_loop self (_get_ngrams self words) words indices table
  = Ret (record table
           (map (fun i => (take (n self) (drop i words), nth (i + n self) words ""))
                indices)).
Proof.
  induction indices as [ | i rest IH ]; intros table Hall; [ reflexivity | ].
  apply Forall_cons in Hall as [Hi Hrest]. simpl.
  rewrite _get_ngrams_lookup by lia.
  destruct (words !! (i + n self)) as [next_word | ] eqn:Hw.
  - rewrite (IH _ Hrest). unfold record. simpl.
    now rewrite (nth_lookup_Some _ _ "" _ Hw).
  - apply lookup_ge_None in Hw. lia.
Qed.

Lemma train_short self text w :
  length (findall_words (lower text)) < n self + 1 ->
  train self text w
  = (Ret (Build (n self) (alpha self) (transitions self) (starting_ngrams self)
            (vocabulary self ∪ list_to_set (findall_words (lower text)))),
     World (entropy w) (cursor w) (stdout w ++ [train_warning self])).
Proof.
  intros Hlen. unfold train.
  apply Nat.ltb_lt in Hlen. rewrite Hlen. reflexivity.
Qed.

Lemma train_long self text w :
  n self + 1 <= length (findall_words (lower text)) ->
  train self text w
  = (Ret (Build (n self) (alpha self)
            (record (transitions self)
               (spec_transitions (n self) (findall_words (lower text))))
            (starting_ngrams self ++ [take (n self) (findall_words (lower text))])
            (vocabulary self ∪ list_to_set (findall_words (lower text)))),
     w).
Proof.
  intros Hlen. unfold train.
  apply Nat.ltb_ge in Hlen as Hlt. rewrite Hlt.
  rewrite _get_ngrams_length.
  replace (length (findall_words (lower text)) + 1 - n self - 1)
    with (length (findall_words (lower text)) - n self) by lia.
  unfold bind, lift.
  rewrite train_loop_record.
  - reflexivity.
  - apply Forall_forall. intros i Hi%elem_of_seq. lia.
Qed.

(** ** What every reachable model satisfies *)

Lemma table_ok_empty k vocab : table_ok k vocab ∅.
Proof. intros context row H. rewrite lookup_empty in H. discriminate. Qed.

Lemma table_ok_mono k vocab vocab' table :
  vocab ⊆ vocab' -> table_ok k vocab table -> table_ok k vocab' table.
Proof.
  intros Hsub Hok context row Hrow.
  destruct (Hok context row Hrow) as (Hlen & Hne & Hcounts).
  repeat split; try assumption; destruct (Hcounts word c) as [? ?]; auto.
Qed.

Lemma table_ok_increment k vocab table context word :
  length context = k -> word ∈ vocab ->
  table_ok k vocab table -> table_ok k vocab (increment table context word).
Proof.
  intros Hlen Hword Hok context' row'. unfold increment.
  destruct (decide (context = context')) as [<- | Hne].
  - rewrite lookup_insert_eq. intros [= <-].
    split; [ exact Hlen | ]. split; [ apply insert_non_empty | ].
    intros word' c.
    destruct (decide (word = word')) as [<- | Hw].
    + rewrite lookup_insert_eq. intros [= <-]. split; [ | exact Hword ].
      destruct (table !! context) as [row | ] eqn:Hrow; simpl.
      * destruct (row !! word) as [c0 | ] eqn:Hc0; simpl; [ | lia ].
        destruct (Hok _ _ Hrow) as (_ & _ & Hcounts).
        destruct (Hcounts _ _ Hc0). lia.
      * rewrite lookup_empty. simpl. lia.
    + rewrite lookup_insert_ne by done.
      destruct (table !! context) as [row | ] eqn:Hrow; simpl.
      * destruct (Hok _ _ Hrow) as (_ & _ & Hcounts). apply Hcounts.
      * rewrite lookup_empty. discriminate.
  - rewrite lookup_insert_ne by done. apply Hok.
Qed.

Lemma table_ok_record k vocab pairs : forall table,
  Forall (fun p => length p.1 = k ∧ p.2 ∈ vocab) pairs ->
  table_ok k vocab table -> table_ok k vocab (record table pairs).
Proof.
  induction pairs as [ | p pairs IH ]; intros table Hall Hok; [ exact Hok | ].
  apply Forall_cons in Hall as [[Hlen Hin] Hall].
  apply IH; [ exact Hall | ]. now apply table_ok_increment.
Qed.

Lemma spec_transitions_ok k (words : list string) :
  Forall (fun p => length p.1 = k ∧ p.2 ∈ words) (spec_transitions k words).
Proof.
  unfold spec_transitions. apply Forall_map, Forall_forall.
  intros i Hi%elem_of_seq. simpl. split.
  - rewrite length_take, length_drop. lia.
  - apply list_elem_of_In, nth_In. lia.
Qed.

Lemma record_not_empty table pairs :
  pairs ≠ [] -> record table pairs ≠ ∅.
Proof.
  intros Hne. destruct (decide (pairs = [])) as [ | _ ]; [ done | ].
  induction pairs as [ | p pairs IH ] using rev_ind; [ done | ].
  unfold record. rewrite foldl_app. simpl. apply insert_non_empty.
Qed.

Lemma train_invariant self text w self' w' :
  invariant self -> train self text w = (Ret self', w') -> invariant self'.
Proof.
  intros Hinv Htrain.
  set (words := findall_words (lower text)) in *.
  assert (Hplain : Forall plain_token words) by apply findall_words_plain.
  destruct (decide (length words < n self + 1)) as [Hshort | Hlong].
  - rewrite train_short in Htrain by exact Hshort.
    injection Htrain as <- <-.
    destruct Hinv as [Ht Hsl Hsv Hst Hp Hstok].
    constructor; simpl.
    + eapply table_ok_mono; [ | exact Ht ]. set_solver.
    + exact Hsl.
    + intros H. specialize (Hsv H). set_solver.
    + exact Hst.
    + intros word [Hin | Hin%elem_of_list_to_set]%elem_of_union; [ auto | ].
      eapply Forall_forall in Hplain; eauto.
    + eapply Forall_impl; [ exact Hstok | ]. intros g Hg.
      eapply Forall_impl; [ exact Hg | ]. set_solver.
  - rewrite train_long in Htrain by (unfold words in Hlong; lia).
    injection Htrain as <- <-.
    destruct Hinv as [Ht Hsl Hsv Hst Hp Hstok].
    fold words.
    constructor; simpl.
    + apply table_ok_record.
      * eapply Forall_impl; [ apply spec_transitions_ok | ].
        intros p [? ?]. split; [ assumption | ]. set_solver.
      * eapply table_ok_mono; [ | exact Ht ]. set_solver.
    + apply Forall_app. split; [ exact Hsl | ].
      constructor; [ | constructor ]. rewrite length_take. lia.
    + intros _. destruct words as [ | word0 words' ]; [ simpl in Hlong; lia | ].
      set_solver.
    + intros _. destruct (starting_ngrams self); discriminate.
    + intros word [Hin | Hin%elem_of_list_to_set]%elem_of_union; [ auto | ].
      eapply Forall_forall in Hplain; eauto.
    + apply Forall_app. split.
      * eapply Forall_impl; [ exact Hstok | ]. intros g Hg.
        eapply Forall_impl; [ exact Hg | ]. set_solver.
      * constructor; [ | constructor ].
        apply Forall_forall. intros word Hin%elem_of_take.
        destruct Hin as (i & Hi & _). apply list_elem_of_lookup_2 in Hi.
        set_solver.
Qed.

Lemma init_invariant n0 alpha0 : invariant (init n0 alpha0).
Proof.
  constructor; simpl; [ apply table_ok_empty | done .. ].
Qed.

Lemma reachable_invariant self : reachable self -> invariant self.
Proof.
  induction 1 as [ | self text w self' w' _ IH Htrain ].
  - apply init_invariant.
  - eapply train_invariant; eauto.
Qed.

Lemma train_config self text w self' w' :
  train self text w = (Ret self', w') -> n self' = n self ∧ alpha self' = alpha self.
Proof.
  intros Htrain.
  destruct (decide (length (findall_words (lower text)) < n self + 1)).
  - rewrite train_short in Htrain by assumption. injection Htrain as <- _. done.
  - rewrite train_long in Htrain by lia. injection Htrain as <- _. done.
Qed.

(** ** The random source *)

Lemma random_choice_ok {A} (seq : list A) w :
  seq ≠ [] ->
  exists x, x ∈ seq ∧ random_choice seq w = (Ret x, advance w).
Proof.
  intros Hne. unfold random_choice.
  destruct seq as [ | a seq' ]; [ done | ].
  set (l := a :: seq').
  run.
  set (i := N.to_nat (entropy w (cursor w) mod N.of_nat (length l))).
  assert (Hi : i < length l).
  { unfold i.
    assert (entropy w (cursor w) mod N.of_nat (length l) < N.of_nat (length l))%N
      by (apply N.mod_lt; simpl; lia).
    lia. }
  destruct (lookup_lt_is_Some_2 l i Hi) as [x Hx].
  exists x. split; [ eapply list_elem_of_lookup_2; eauto | ].
  fold i. rewrite Hx. reflexivity.
Qed.

Lemma midpoint_range lo hi :
  lo < hi -> lo <= (lo + hi) / 2 < hi ∧ lo + hi <= 2 * ((lo + hi) / 2) + 1.
Proof.
  intros Hlt.
  pose proof (Nat.div_mod_eq (lo + hi) 2) as Hdiv.
  pose proof (Nat.mod_upper_bound (lo + hi) 2) as Hmod.
  lia.
Qed.

Lemma bisect_loop_step fuel a x lo hi :
  bisect_loop (S fuel) a x lo hi
  = if lo <? hi then
      if Qlt_le_dec x (nth ((lo + hi) / 2) a 0%Q)
      then bisect_loop fuel a x lo ((lo + hi) / 2)
      else bisect_loop fuel a x ((lo + hi) / 2 + 1) hi
    else lo.
Proof. reflexivity. Qed.

Lemma bisect_loop_range fuel a x : forall lo hi,
  lo <= hi -> lo <= bisect_loop fuel a x lo hi <= hi.
Proof.
  induction fuel as [ | fuel IH ]; intros lo hi Hle; [ simpl; lia | ].
  rewrite bisect_loop_step.
  destruct (lo <? hi) eqn:Hlt; [ | lia ].
  apply Nat.ltb_lt in Hlt.
  destruct (midpoint_range lo hi Hlt) as [Hmid _].
  destruct (Qlt_le_dec x (nth ((lo + hi) / 2) a 0%Q)).
  - specialize (IH lo ((lo + hi) / 2)). lia.
  - specialize (IH ((lo + hi) / 2 + 1) hi). lia.
Qed.

(** More fuel than [hi - lo] changes nothing: the loop of [bisect] has
    stopped by then. *)
Lemma bisect_fuel fuel a x : forall lo hi,
  hi - lo <= fuel ->
  bisect_loop (S fuel) a x lo hi = bisect_loop fuel a x lo hi.
Proof.
  induction fuel as [ | fuel IH ]; intros lo hi Hfuel.
  - rewrite bisect_loop_step. destruct (lo <? hi) eqn:Hlt; [ | reflexivity ].
    apply Nat.ltb_lt in Hlt. lia.
  - rewrite (bisect_loop_step fuel a x lo hi), (bisect_loop_step (S fuel) a x lo hi).
    destruct (lo <? hi) eqn:Hlt; [ | reflexivity ].
    apply Nat.ltb_lt in Hlt.
    destruct (midpoint_range lo hi Hlt) as [Hmid Hhalf].
    destruct (Qlt_le_dec x (nth ((lo + hi) / 2) a 0%Q)); apply IH; lia.
Qed.

Lemma accumulate_from_length weights : forall acc,
  length (accumulate_from acc weights) = length weights.
Proof. induction weights; intros acc; simpl; auto. Qed.

Lemma accumulate_length weights : length (accumulate weights) = length weights.
Proof. destruct weights; simpl; [ | rewrite accumulate_from_length ]; done. Qed.

Lemma accumulate_from_last weights : forall acc,
  exists total, last (acc :: accumulate_from acc weights) = Some total
                ∧ (total == acc + Qsum weights)%Q.
Proof.
  induction weights as [ | x xs IH ]; intros acc.
  - exists acc. split; [ reflexivity | simpl; ring ].
  - destruct (IH (acc + x)%Q) as (total & Hlast & Htotal).
    exists total. split.
    + simpl accumulate_from. rewrite last_cons_cons. exact Hlast.
    + rewrite Htotal. simpl. ring.
Qed.

Lemma accumulate_last weights :
  weights ≠ [] ->
  exists total, last (accumulate weights) = Some total ∧ (total == Qsum weights)%Q.
Proof.
  destruct weights as [ | x xs ]; [ done | intros _ ].
  destruct (accumulate_from_last xs x) as (total & Hlast & Htotal).
  exists total. split; [ exact Hlast | exact Htotal ].
Qed.

Lemma random_choices_ok {A} (population : list A) (weights : list Q) w :
  population ≠ [] ->
  length weights = length population ->
  (0 < Qsum weights)%Q ->
  exists x, x ∈ population ∧ random_choices population weights w = (Ret x, advance w).
Proof.
  intros Hne Hlen Hpos. unfold random_choices.
  rewrite accumulate_length, Hlen, Nat.eqb_refl. simpl.
  destruct (accumulate_last weights) as (total & Hlast & Htotal).
  { intros ->. destruct population; [ done | discriminate ]. }
  rewrite Hlast.
  destruct (Qle_bool total 0) eqn:Hle.
  { apply Qle_bool_iff in Hle. rewrite Htotal in Hle.
    exfalso. eapply Qlt_not_le; eauto. }
  run.
  match goal with |- context [ population !! ?i ] => set (idx := i) end.
  assert (Hidx : idx < length population).
  { unfold idx, bisect.
    pose proof (bisect_loop_range (length population - 1 - 0) (accumulate weights)
      ((Z.of_N (entropy w (cursor w) mod 2 ^ 53) # 2 ^ 53) * total)%Q 0
      (length population - 1)).
    destruct population; [ done | ]. simpl in *. lia. }
  destruct (lookup_lt_is_Some_2 population idx Hidx) as [x Hx].
  exists x. split; [ eapply list_elem_of_lookup_2; eauto | ].
  rewrite Hx. reflexivity.
Qed.

(** ** The smoothed probabilities *)

Lemma total_count_empty : total_count ∅ = 0%Z.
Proof. unfold total_count. apply map_fold_empty. Qed.

Lemma total_count_insert (row : gmap string Z) word c :
  row !! word = None ->
  total_count (<[word := c]> row) = (c + total_count row)%Z.
Proof.
  intros Hnone. unfold total_count.
  apply (map_fold_insert_L (fun _ c acc => (c + acc)%Z)); [ | exact Hnone ].
  intros. lia.
Qed.

Lemma total_count_size (row : gmap string Z) :
  (forall word c, row !! word = Some c -> (1 <= c)%Z) ->
  (Z.of_nat (size row) <= total_count row)%Z.
Proof.
  induction row as [ | word c row Hnone IH ] using map_ind; intros Hpos.
  - rewrite total_count_empty, map_size_empty. lia.
  - rewrite total_count_insert, map_size_insert_None by assumption.
    assert (1 <= c)%Z by (apply (Hpos word); apply lookup_insert_eq).
    assert (Z.of_nat (size row) <= total_count row)%Z.
    { apply IH. intros word' c' Hc'. apply (Hpos word').
      rewrite lookup_insert_ne; [ exact Hc' | ]. intros ->. congruence. }
    lia.
Qed.

Lemma total_count_positive (row : gmap string Z) :
  row ≠ ∅ ->
  (forall word c, row !! word = Some c -> (1 <= c)%Z) ->
  (1 <= total_count row)%Z.
Proof.
  intros Hne Hpos. pose proof (total_count_size row Hpos) as Hsize.
  assert (size row ≠ 0) by (intros H%map_size_empty_inv; done).
  lia.
Qed.

Lemma Zsum_counts_insert (l : list string) (row : gmap string Z) word c :
  NoDup l -> row !! word = None ->
  Zsum (map (fun w => default 0%Z (<[word := c]> row !! w)) l)
  = ((if bool_decide (word ∈ l) then c else 0)
     + Zsum (map (fun w => default 0%Z (row !! w)) l))%Z.
Proof.
  intros Hnd Hnone. induction Hnd as [ | x l Hx Hnd IH ].
  - reflexivity.
  - simpl. rewrite IH. destruct (decide (word = x)) as [-> | Hne].
    + rewrite lookup_insert_eq, Hnone. simpl.
      rewrite (bool_decide_eq_false_2 (x ∈ l)) by assumption.
      rewrite bool_decide_eq_true_2 by apply list_elem_of_here. lia.
    + rewrite lookup_insert_ne by done.
      destruct (decide (word ∈ l)) as [Hin | Hnin].
      * rewrite (bool_decide_eq_true_2 (word ∈ l)) by assumption.
        rewrite (bool_decide_eq_true_2 (word ∈ x :: l))
          by now apply list_elem_of_further.
        lia.
      * rewrite (bool_decide_eq_false_2 (word ∈ l)) by assumption.
        rewrite (bool_decide_eq_false_2 (word ∈ x :: l))
          by (intros [-> | ?]%elem_of_cons; done).
        lia.
Qed.

(** Summing the counts of a row over a duplicate-free list that contains
    all its followers gives [sum(word_counts.values())]. *)
Lemma Zsum_counts_total (l : list string) (row : gmap string Z) :
  NoDup l ->
  (forall word, is_Some (row !! word) -> word ∈ l) ->
  Zsum (map (fun w => default 0%Z (row !! w)) l) = total_count row.
Proof.
  intros Hnd. induction row as [ | word c row Hnone IH ] using map_ind; intros Hdom.
  - rewrite total_count_empty. clear. induction l as [ | x l IH ]; [ reflexivity | ].
    simpl. rewrite IH, lookup_empty. reflexivity.
  - rewrite total_count_insert, Zsum_counts_insert by assumption.
    rewrite bool_decide_eq_true_2
      by (apply Hdom; rewrite lookup_insert_eq; eauto).
    rewrite IH; [ reflexivity | ].
    intros word' Hsome. apply Hdom.
    rewrite lookup_insert_ne; [ exact Hsome | ].
    intros ->. rewrite Hnone in Hsome. destruct Hsome. discriminate.
Qed.

Lemma probabilities_loop_ok self word_counts vocab :
  ¬ (denominator self word_counts == 0)%Q ->
  probabilities_loop self word_counts vocab
  = Ret (map (fun word => (word, smoothed self word_counts word)) vocab).
Proof.
  intros Hden. induction vocab as [ | word rest IH ]; [ reflexivity | ].
  simpl. unfold probability. fold (denominator self word_counts).
  destruct (Qeq_bool (denominator self word_counts) 0) eqn:Hz.
  - apply Qeq_bool_iff in Hz. contradiction.
  - rewrite IH. reflexivity.
Qed.

Lemma probabilities_loop_zero self word_counts word rest :
  (denominator self word_counts == 0)%Q ->
  probabilities_loop self word_counts (word :: rest) = Raise ZeroDivisionError.
Proof.
  intros Hden. simpl. unfold probability. fold (denominator self word_counts).
  apply Qeq_bool_iff in Hden. rewrite Hden. reflexivity.
Qed.

Lemma Qsum_smoothed self word_counts (l : list string) :
  (Qsum (map (fun word => smoothed self word_counts word) l)
   == (inject_Z (Zsum (map (fun w => default 0%Z (word_counts !! w)) l))
       + alpha self * inject_Z (Z.of_nat (length l)))
      / denominator self word_counts)%Q.
Proof.
  induction l as [ | word l IH ].
  - simpl. unfold Qdiv. ring.
  - change (Qsum (map (fun word => smoothed self word_counts word) (word :: l)))
      with (smoothed self word_counts word
            + Qsum (map (fun word => smoothed self word_counts word) l))%Q.
    rewrite IH. unfold smoothed.
    change (Zsum (map (fun w => default 0%Z (word_counts !! w)) (word :: l)))
      with (default 0%Z (word_counts !! word)
            + Zsum (map (fun w => default 0%Z (word_counts !! w)) l))%Z.
    change (length (word :: l)) with (S (length l)).
    rewrite Nat2Z.inj_succ, <- Z.add_1_l, !inject_Z_plus.
    unfold Qdiv. ring.
Qed.

Lemma map_fst_smoothed self word_counts (l : list string) :
  map fst (map (fun word => (word, smoothed self word_counts word)) l) = l.
Proof. rewrite map_map. simpl. apply map_id. Qed.

Lemma map_snd_smoothed self word_counts (l : list string) :
  map snd (map (fun word => (word, smoothed self word_counts word)) l)
  = map (fun word => smoothed self word_counts word) l.
Proof. rewrite map_map. reflexivity. Qed.

(** In a reachable model with [alpha >= 0], the denominator of a recorded
    context is at least 1. *)
Lemma denominator_positive self context word_counts :
  invariant self -> (0 <= alpha self)%Q ->
  transitions self !! context = Some word_counts ->
  (1 <= denominator self word_counts)%Q.
Proof.
  intros Hinv Halpha Hrow.
  destruct (inv_table self Hinv context word_counts Hrow) as (_ & Hne & Hcounts).
  assert (Htotal : (1 <= total_count word_counts)%Z).
  { apply total_count_positive; [ exact Hne | ].
    intros word c Hc. now destruct (Hcounts word c Hc). }
  unfold denominator.
  assert (H1 : (1 <= inject_Z (total_count word_counts))%Q).
  { change 1%Q with (inject_Z 1). now rewrite <- Zle_Qle. }
  assert (H2 : (0 <= alpha self * inject_Z (Z.of_nat (size (vocabulary self))))%Q).
  { apply Qmult_le_0_compat; [ exact Halpha | ].
    change 0%Q with (inject_Z 0). rewrite <- Zle_Qle. lia. }
  rewrite <- (Qplus_0_r 1).
  now apply Qplus_le_compat.
Qed.

Lemma smoothed_sum_one self context word_counts :
  invariant self -> (0 <= alpha self)%Q ->
  transitions self !! context = Some word_counts ->
  (Qsum (map (fun word => smoothed self word_counts word)
           (elements (vocabulary self))) == 1)%Q.
Proof.
  intros Hinv Halpha Hrow.
  pose proof (denominator_positive self context word_counts Hinv Halpha Hrow) as Hden.
  destruct (inv_table self Hinv context word_counts Hrow) as (_ & _ & Hcounts).
  rewrite Qsum_smoothed, Zsum_counts_total.
  - fold (size (vocabulary self)). fold (denominator self word_counts).
    apply Qmult_inv_r. intros Hz. rewrite Hz in Hden. exact (Hden eq_refl).
  - apply NoDup_elements.
  - intros word [c Hc]. apply elem_of_elements. now destruct (Hcounts word c Hc).
Qed.

(** ** Prediction *)

Lemma predict_branch_short self context :
  length context < n self -> predict_branch self context = TooShort.
Proof.
  intros Hlen. unfold predict_branch.
  apply Nat.ltb_lt in Hlen. now rewrite Hlen.
Qed.

Lemma predict_branch_key self context word_counts :
  length context = n self ->
  transitions self !! context = Some word_counts ->
  predict_branch self context = Seen context word_counts.
Proof.
  intros Hlen Hrow. unfold predict_branch.
  rewrite Hlen, Nat.ltb_irrefl, Hrow. reflexivity.
Qed.

(** A computation that wraps its result in [Some] never yields [None]. *)
Lemma bind_some_not_none {A} (c : M A) w :
  fst ((x <- c ;; ret (Some x)) w) ≠ Ret None.
Proof. run. destruct (c w) as [[a | e] w']; simpl; discriminate. Qed.

Lemma random_choice_elem {A} (seq : list A) w x w' :
  random_choice seq w = (Ret x, w') -> x ∈ seq.
Proof.
  unfold random_choice. destruct seq as [ | a seq' ]; [ discriminate | ].
  run.
  destruct (_ !! _) as [y | ] eqn:Hy; [ | discriminate ].
  intros [= <- _]. eapply list_elem_of_lookup_2; eauto.
Qed.

Lemma random_choices_elem {A} (population : list A) weights w x w' :
  random_choices population weights w = (Ret x, w') -> x ∈ population.
Proof.
  unfold random_choices.
  destruct (negb _); [ discriminate | ].
  destruct (last _) as [total | ]; [ | discriminate ].
  destruct (Qle_bool total 0); [ discriminate | ].
  run.
  destruct (_ !! _) as [y | ] eqn:Hy; [ | discriminate ].
  intros [= <- _]. eapply list_elem_of_lookup_2; eauto.
Qed.

Lemma probabilities_loop_keys self word_counts vocab : forall probs,
  probabilities_loop self word_counts vocab = Ret probs -> map fst probs = vocab.
Proof.
  induction vocab as [ | word rest IH ]; intros probs; simpl.
  - now intros [= <-].
  - destruct (probability self word_counts word); [ | discriminate ].
    destruct (probabilities_loop self word_counts rest) as [ps | ]; [ | discriminate ].
    intros [= <-]. simpl. now rewrite (IH ps).
Qed.

(** Whatever token a reachable model predicts is in its vocabulary. *)
Lemma predict_in_vocabulary self context w word w' :
  invariant self ->
  predict_next_word self context w = (Ret (Some word), w') ->
  word ∈ vocabulary self.
Proof.
  intros Hinv. unfold predict_next_word.
  destruct (predict_branch self context) as [ | | | | context' word_counts ].
  - run. discriminate.
  - unfold bind at 1.
    destruct (random_choice _ w) as [[x | e] w1] eqn:Hx; [ | discriminate ].
    run. intros [= <- _]. apply random_choice_elem in Hx.
    now apply elem_of_elements.
  - unfold bind at 1.
    destruct (random_choice _ w) as [[g | e] w1] eqn:Hg; [ | discriminate ].
    apply random_choice_elem in Hg.
    destruct (last g) as [x | ] eqn:Hlast; run; [ | discriminate ].
    intros [= <- _].
    pose proof (inv_start_tokens self Hinv) as Htok.
    rewrite Forall_forall in Htok. specialize (Htok g Hg).
    rewrite Forall_forall in Htok. apply Htok.
    apply last_Some in Hlast as [g' ->]. set_solver.
  - run. discriminate.
  - unfold bind at 1, lift.
    destruct (probabilities self word_counts) as [probs | e] eqn:Hp; [ | discriminate ].
    unfold bind at 1.
    destruct (random_choices _ _ w) as [[x | e] w1] eqn:Hx; [ | discriminate ].
    run. intros [= <- _]. apply random_choices_elem in Hx.
    apply probabilities_loop_keys in Hp. rewrite Hp in Hx.
    now apply elem_of_elements.
Qed.

(** A reachable model with [alpha >= 0] always answers a context of at
    least [n] tokens: with a token of the vocabulary after one draw, or,
    when it has seen no token at all, with [None]. *)
Lemma predict_total self context w :
  invariant self -> (0 <= alpha self)%Q -> n self <= length context ->
  (exists word, word ∈ vocabulary self
     ∧ predict_next_word self context w = (Ret (Some word), advance w))
  ∨ (vocabulary self = ∅ ∧ predict_next_word self context w = (Ret None, w)).
Proof.
  intros Hinv Halpha Hlen. unfold predict_next_word, predict_branch.
  apply Nat.ltb_ge in Hlen. rewrite Hlen.
  set (context' := if n self <? length context then _ else _).
  destruct (transitions self !! context') as [word_counts | ] eqn:Hrow.
  - left.
    pose proof (denominator_positive self context' word_counts Hinv Halpha Hrow) as Hden.
    destruct (inv_table self Hinv context' word_counts Hrow) as (_ & Hne & Hcounts).
    unfold probabilities.
    rewrite probabilities_loop_ok
      by (intros Hz; rewrite Hz in Hden; exact (Hden eq_refl)).
    unfold bind at 1, lift.
    rewrite map_fst_smoothed, map_snd_smoothed.
    destruct (random_choices_ok (elements (vocabulary self))
                (map (fun word => smoothed self word_counts word)
                     (elements (vocabulary self))) w)
      as (x & Hx & Hrun).
    + apply map_choose in Hne as (word & c & Hc).
      destruct (Hcounts word c Hc) as [_ Hin].
      intros Hnil. apply elem_of_elements in Hin. rewrite Hnil in Hin.
      now apply not_elem_of_nil in Hin.
    + now rewrite length_map.
    + rewrite (smoothed_sum_one self context' word_counts Hinv Halpha Hrow).
      reflexivity.
    + exists x. split; [ now apply elem_of_elements | ].
      unfold bind. rewrite Hrun. reflexivity.
  - destruct (decide (vocabulary self = ∅)) as [Hempty | Hne].
    + right. split; [ exact Hempty | ].
      rewrite (bool_decide_eq_true_2 _ Hempty). simpl.
      assert (Hstart : starting_ngrams self = []).
      { destruct (decide (starting_ngrams self = [])) as [ | Hs ]; [ assumption | ].
        now apply (inv_start_vocabulary self Hinv) in Hs. }
      rewrite (bool_decide_eq_true_2 _ Hstart). reflexivity.
    + left. rewrite (bool_decide_eq_false_2 _ Hne). simpl.
      destruct (random_choice_ok (elements (vocabulary self)) w) as (x & Hx & Hrun).
      * intros Hnil. apply elements_empty_inv in Hnil.
        apply leibniz_equiv in Hnil. contradiction.
      * exists x. split; [ now apply elem_of_elements | ].
        unfold bind. rewrite Hrun. reflexivity.
Qed.

(** ** Generation *)

Lemma last_n_length {A} k (l : list A) :
  k <= length l -> k <= length (last_n k l).
Proof.
  intros Hle. unfold last_n. destruct (k =? 0) eqn:Hk.
  - exact Hle.
  - rewrite length_drop. lia.
Qed.

Lemma last_n_length_pos {A} k (l : list A) :
  1 <= k <= length l -> length (last_n k l) = k.
Proof.
  intros Hle. unfold last_n. destruct (k =? 0) eqn:Hk.
  - apply Nat.eqb_eq in Hk. lia.
  - rewrite length_drop. lia.
Qed.

Lemma last_n_Forall {A} (P : A -> Prop) k (l : list A) :
  Forall P l -> Forall P (last_n k l).
Proof.
  intros Hl. unfold last_n. destruct (k =? 0); [ exact Hl | ].
  now apply Forall_drop.
Qed.

Lemma start_spaceless self g :
  invariant self -> g ∈ starting_ngrams self -> Forall spaceless g.
Proof.
  intros Hinv Hg.
  pose proof (inv_start_tokens self Hinv) as Htok.
  rewrite Forall_forall in Htok.
  eapply Forall_impl; [ exact (Htok g Hg) | ].
  intros word Hin. apply plain_token_spaceless, (inv_plain self Hinv), Hin.
Qed.

Lemma pad_seed_ok self rounds : forall sentence w,
  invariant self -> starting_ngrams self ≠ [] ->
  length sentence + rounds = n self ->
  exists padded w',
    pad_seed self rounds sentence w = (Ret padded, w')
    ∧ length padded = n self
    ∧ (Forall spaceless sentence -> Forall spaceless padded).
Proof.
  induction rounds as [ | rounds IH ]; intros sentence w Hinv Hstart Hlen.
  - exists sentence, w. simpl. split; [ reflexivity | ]. split; [ lia | auto ].
  - simpl. unfold bind at 1.
    destruct (random_choice_ok (starting_ngrams self) w Hstart) as (g & Hg & Hrun).
    rewrite Hrun.
    pose proof (inv_start_length self Hinv) as Hlens.
    rewrite Forall_forall in Hlens. specialize (Hlens g Hg).
    destruct (lookup_lt_is_Some_2 g (length sentence)) as [word Hword]; [ lia | ].
    rewrite Hword.
    destruct (IH (sentence ++ [word]) (advance w) Hinv Hstart)
      as (padded & w' & Hpad & Hn & Hplain).
    { rewrite length_app. simpl. lia. }
    exists padded, w'. split; [ exact Hpad | ]. split; [ exact Hn | ].
    intros Hs. apply Hplain, Forall_app. split; [ exact Hs | ].
    constructor; [ | constructor ].
    pose proof (start_spaceless self g Hinv Hg) as Hgp.
    rewrite Forall_forall in Hgp. apply Hgp.
    eapply list_elem_of_lookup_2; eauto.
Qed.

(** The seeding phase of a reachable model never raises. *)
Lemma seed_sentence_returns self start_words w :
  invariant self ->
  exists outcome w', seed_sentence self start_words w = (Ret outcome, w').
Proof.
  intros Hinv. unfold seed_sentence.
  destruct (bool_decide (transitions self = ∅)); [ run; eauto | ].
  destruct start_words as [seed | ].
  - destruct (length seed <? n self) eqn:Hshort; [ | run; eauto ].
    apply Nat.ltb_lt in Hshort.
    destruct (bool_decide (starting_ngrams self = [])) eqn:Hstart; [ run; eauto | ].
    apply bool_decide_eq_false in Hstart.
    destruct (pad_seed_ok self (n self - length seed) seed w Hinv Hstart)
      as (padded & w' & Hpad & _); [ lia | ].
    unfold bind. rewrite Hpad. run. eauto.
  - destruct (bool_decide (starting_ngrams self = [])) eqn:Hstart; [ run; eauto | ].
    apply bool_decide_eq_false in Hstart.
    destruct (random_choice_ok (starting_ngrams self) w Hstart) as (g & _ & Hrun).
    unfold bind. rewrite Hrun. run. eauto.
Qed.

(** On a trained reachable model with [n >= 1], seeding yields exactly [n]
    tokens. *)
Lemma seed_sentence_trained self start_words w :
  invariant self -> transitions self ≠ ∅ -> 1 <= n self ->
  (forall seed, start_words = Some seed -> Forall spaceless seed) ->
  exists sentence w',
    seed_sentence self start_words w = (Ret (Sentence sentence), w')
    ∧ length sentence = n self ∧ Forall spaceless sentence.
Proof.
  intros Hinv Htrained Hn Hseed. unfold seed_sentence.
  rewrite (bool_decide_eq_false_2 _ Htrained).
  pose proof (inv_start_trained self Hinv Htrained) as Hstart.
  rewrite (bool_decide_eq_false_2 _ Hstart).
  destruct start_words as [seed | ].
  - specialize (Hseed seed eq_refl).
    destruct (length seed <? n self) eqn:Hshort.
    + apply Nat.ltb_lt in Hshort.
      destruct (pad_seed_ok self (n self - length seed) seed w Hinv Hstart)
        as (padded & w' & Hpad & Hlen & Hplain); [ lia | ].
      unfold bind. rewrite Hpad. run. eauto 6.
    + apply Nat.ltb_ge in Hshort. run.
      destruct (n self <? length seed) eqn:Hlong.
      * eexists _, w. split; [ reflexivity | ].
        split; [ apply last_n_length_pos; lia | now apply last_n_Forall ].
      * apply Nat.ltb_ge in Hlong.
        eexists _, w. split; [ reflexivity | ]. split; [ lia | exact Hseed ].
  - destruct (random_choice_ok (starting_ngrams self) w Hstart) as (g & Hg & Hrun).
    unfold bind. rewrite Hrun. run.
    exists g, (advance w). split; [ reflexivity | ]. split.
    + pose proof (inv_start_length self Hinv) as Hlens.
      rewrite Forall_forall in Hlens. now apply Hlens.
    + now apply start_spaceless with self.
Qed.

(** The extension loop appends at most [rounds] tokens, all from the
    vocabulary. *)
Lemma extend_bound self rounds : forall sentence w extended w',
  invariant self ->
  extend self rounds sentence w = (Ret extended, w') ->
  length extended <= length sentence + rounds
  ∧ (Forall spaceless sentence -> Forall spaceless extended).
Proof.
  induction rounds as [ | rounds IH ]; intros sentence w extended w' Hinv.
  - simpl. run. intros [= <- _]. split; [ lia | auto ].
  - simpl. unfold bind at 1.
    destruct (predict_next_word self (last_n (n self) sentence) w)
      as [[[word | ] | e] w1] eqn:Hpredict.
    + intros Hextend. apply IH in Hextend as [Hlen Hplain]; [ | exact Hinv ].
      rewrite length_app in Hlen. simpl in Hlen. split; [ lia | ].
      intros Hs. apply Hplain, Forall_app. split; [ exact Hs | ].
      constructor; [ | constructor ].
      apply plain_token_spaceless, (inv_plain self Hinv).
      eapply predict_in_vocabulary; eauto.
    + run. intros [= <- _]. split; [ lia | auto ].
    + discriminate.
Qed.

(** With [alpha >= 0] the extension loop of a reachable model returns. *)
Lemma extend_total self rounds : forall sentence w,
  invariant self -> (0 <= alpha self)%Q -> n self <= length sentence ->
  exists extended w', extend self rounds sentence w = (Ret extended, w').
Proof.
  induction rounds as [ | rounds IH ]; intros sentence w Hinv Halpha Hlen.
  - simpl. run. eauto.
  - simpl. unfold bind at 1.
    pose proof (last_n_length (n self) sentence Hlen) as Hcontext.
    destruct (predict_total self (last_n (n self) sentence) w Hinv Halpha Hcontext)
      as [(word & _ & Hrun) | (_ & Hrun)].
    + rewrite Hrun. apply IH; try assumption. rewrite length_app. lia.
    + rewrite Hrun. run. eauto.
Qed.

(** ** The example of the specification *)

Lemma train_cat w : train (init 2 1) cat_text w = (Ret cat_model, w).
Proof. vm_compute. reflexivity. Qed.

Lemma cat_vocabulary_not_empty : vocabulary cat_model ≠ ∅.
Proof.
  intros H. assert (Hin : "the" ∈ vocabulary cat_model) by (vm_compute; reflexivity).
  rewrite H in Hin. now apply not_elem_of_empty in Hin.
Qed.

Lemma cat_model_reachable : reachable cat_model.
Proof.
  eapply reachable_train; [ apply (reachable_init 2 1) | ].
  apply (train_cat (world0 tape0)).
Qed.

(** [train] never raises: its index accesses are always in range. *)
Lemma train_returns self text w :
  exists self' w', train self text w = (Ret self', w').
Proof.
  destruct (decide (length (findall_words (lower text)) < n self + 1)).
  - rewrite train_short by assumption. eauto.
  - rewrite train_long by lia. eauto.
Qed.

(** With a negative [alpha] the denominator can vanish, and the division
    raises: [NGramMarkovChain(n=2, alpha=-1/3)] trained on ["a b c"]. *)
Example negative_alpha_raises :
  exists self',
    train (init 2 (-1 # 3)) "a b c" (world0 tape0) = (Ret self', world0 tape0)
    ∧ fst (predict_next_word self' ["a"; "b"] (world0 tape0))
      = Raise ZeroDivisionError.
Proof. eexists. split; vm_compute; reflexivity. Qed.

(** After a training call that was too short the Context Table is still
    empty, so [generate_sentence()] answers with the first sentinel. *)
Example generate_after_short_training :
  exists self' w',
    train (init 3 1) "a b" (world0 tape0) = (Ret self', w')
    ∧ fst (generate_sentence self' None 25 w') = Ret "Model not trained yet.".
Proof. eexists _, _. split; vm_compute; reflexivity. Qed.

(** * The claims *)

(** C1. In every model reached by training, with [alpha >= 0], and for every
    context that is a key of the Context Table, [predict_next_word] computes
    for each token [w] of the Vocabulary the weight
    [(count(w) + alpha) / (total + alpha * |Vocabulary|)], where [total] is
    the sum of the counts of the context and [count(w)] is 0 for a token
    never seen after it, samples from exactly these weights, and the weights
    sum to 1 over the Vocabulary in rational arithmetic. *)
Theorem predict_next_word_smoothed self context word_counts :
  reachable self -> (0 <= alpha self)%Q ->
  transitions self !! context = Some word_counts ->
  let probs :=
    map (fun word => (word, smoothed self word_counts word))
        (elements (vocabulary self)) in
  (forall word,
     smoothed self word_counts word
     = ((inject_Z (count (transitions self) context word) + alpha self)
        / (inject_Z (total_count word_counts)
           + alpha self * inject_Z (Z.of_nat (size (vocabulary self)))))%Q)
  ∧ total_count word_counts
    = Zsum (map (count (transitions self) context) (elements (vocabulary self)))
  ∧ probabilities self word_counts = Ret probs
  ∧ (forall w,
       predict_next_word self context w
       = (word <- random_choices (map fst probs) (map snd probs) ;;
          ret (Some word)) w)
  ∧ (Qsum (map snd probs) == 1)%Q.
Proof.
  intros Hreach Halpha Hrow probs.
  pose proof (reachable_invariant self Hreach) as Hinv.
  pose proof (denominator_positive self context word_counts Hinv Halpha Hrow) as Hden.
  destruct (inv_table self Hinv context word_counts Hrow) as (Hlen & _ & Hcounts).
  assert (Hcount : forall word,
            count (transitions self) context word = default 0%Z (word_counts !! word)).
  { intros word. unfold count. now rewrite Hrow. }
  assert (Hprobs : probabilities self word_counts = Ret probs).
  { unfold probabilities. apply probabilities_loop_ok.
    intros Hz. rewrite Hz in Hden. exact (Hden eq_refl). }
  split; [ | split; [ | split; [ | split ] ] ].
  - intros word. unfold smoothed, denominator. now rewrite Hcount.
  - rewrite <- (Zsum_counts_total (elements (vocabulary self)) word_counts).
    + f_equal. apply map_ext. intros word. now rewrite Hcount.
    + apply NoDup_elements.
    + intros word [c Hc]. apply elem_of_elements. now destruct (Hcounts word c Hc).
  - exact Hprobs.
  - intros w. unfold predict_next_word.
    rewrite (predict_branch_key self context word_counts Hlen Hrow).
    rewrite Hprobs. reflexivity.
  - unfold probs. rewrite map_snd_smoothed.
    now apply (smoothed_sum_one self context word_counts).
Qed.

Lemma predict_next_word_smoothed_witness :
  probabilities cat_model {[ "sat" := 1%Z; "ran" := 1%Z ]}
  = Ret (map (fun word =>
                (word, smoothed cat_model {[ "sat" := 1%Z; "ran" := 1%Z ]} word))
             (elements (vocabulary cat_model)))
  ∧ (Qsum (map snd
             (map (fun word =>
                     (word, smoothed cat_model {[ "sat" := 1%Z; "ran" := 1%Z ]} word))
                  (elements (vocabulary cat_model)))) == 1)%Q.
Proof.
  destruct (predict_next_word_smoothed cat_model ["the"; "cat"]
              {[ "sat" := 1%Z; "ran" := 1%Z ]} cat_model_reachable)
    as (_ & _ & Hprobs & _ & Hsum).
  - vm_compute. discriminate.
  - vm_compute. reflexivity.
  - split; [ exact Hprobs | exact Hsum ].
Defined.

(** C2, the claim as stated fails: the model of the example has a non-empty
    Vocabulary, and on the one-token context [("the",)] (shorter than
    [n = 2]) [predict_next_word] returns [None]. *)
Lemma predict_next_word_short_is_absent :
  vocabulary cat_model ≠ ∅
  ∧ fst (predict_next_word cat_model ["the"] (world0 tape0)) = Ret None.
Proof. split; [ apply cat_vocabulary_not_empty | vm_compute; reflexivity ]. Qed.

(** C2, amended. For every model whose Vocabulary is non-empty and every
    context of at least [n] tokens, seen or not, [predict_next_word] never
    returns [None]; in a model reached by training with [alpha >= 0] it
    returns a token of the Vocabulary. *)
Theorem predict_next_word_never_absent self context w :
  vocabulary self ≠ ∅ -> n self <= length context ->
  fst (predict_next_word self context w) ≠ Ret None
  ∧ (reachable self -> (0 <= alpha self)%Q ->
     exists word, word ∈ vocabulary self
       ∧ predict_next_word self context w = (Ret (Some word), advance w)).
Proof.
  intros Hvocab Hlen. split.
  - unfold predict_next_word, predict_branch.
    apply Nat.ltb_ge in Hlen. rewrite Hlen.
    destruct (transitions self !! _) as [word_counts | ].
    + unfold bind at 1, lift.
      destruct (probabilities self word_counts) as [probs | e]; [ | simpl; discriminate ].
      apply bind_some_not_none.
    + rewrite (bool_decide_eq_false_2 _ Hvocab). simpl.
      apply bind_some_not_none.
  - intros Hreach Halpha.
    destruct (predict_total self context w (reachable_invariant self Hreach)
                Halpha Hlen) as [Hword | [Hempty _]]; [ exact Hword | contradiction ].
Qed.

Lemma predict_next_word_never_absent_witness :
  fst (predict_next_word cat_model ["zzz"; "qqq"] (world0 tape0)) ≠ Ret None.
Proof.
  apply (predict_next_word_never_absent cat_model ["zzz"; "qqq"] (world0 tape0)).
  - apply cat_vocabulary_not_empty.
  - vm_compute. lia.
Defined.

(** C3 fails on the code.  [max_length] is documented as the "Maximum
    length of the generated sentence", but the seeding phase always builds
    [n] tokens and nothing cuts them down: on the trained model of the
    example ([n = 2]) both [generate_sentence(["the", "cat"], max_length=1)]
    and [generate_sentence(max_length=1)] return ["the cat"], two tokens. *)
Theorem generate_sentence_exceeds_max_length :
  train (init 2 1) cat_text (world0 tape0) = (Ret cat_model, world0 tape0)
  ∧ generate_sentence cat_model (Some ["the"; "cat"]) 1 (world0 tape0)
    = (Ret "the cat", world0 tape0)
  ∧ generate_sentence cat_model None 1 (world0 tape0)
    = (Ret "the cat", advance (world0 tape0))
  ∧ count_tokens "the cat" = 2.
Proof. repeat split; vm_compute; reflexivity. Qed.

(** What the code does guarantee.  For every trained model reached by
    training, with [n >= 1], every seed whose tokens contain no space (or no
    seed), every [max_length] and every outcome of the random choices, a
    string returned by [generate_sentence] contains at most
    [max(max_length, n)] space-separated tokens; with [alpha >= 0] a string
    is returned. *)
Theorem generate_sentence_length_bound self start_words max_length w :
  reachable self -> transitions self ≠ ∅ -> 1 <= n self ->
  (forall seed, start_words = Some seed -> Forall spaceless seed) ->
  (forall s w', generate_sentence self start_words max_length w = (Ret s, w') ->
     (Z.of_nat (count_tokens s) <= Z.max max_length (Z.of_nat (n self)))%Z)
  ∧ ((0 <= alpha self)%Q ->
     exists s w', generate_sentence self start_words max_length w = (Ret s, w')).
Proof.
  intros Hreach Htrained Hn Hseed.
  pose proof (reachable_invariant self Hreach) as Hinv.
  destruct (seed_sentence_trained self start_words w Hinv Htrained Hn Hseed)
    as (sentence & w1 & Hseeded & Hlen & Hplain).
  assert (Hgen : generate_sentence self start_words max_length w
                 = (extended <- extend self
                      (Z.to_nat (max_length - Z.of_nat (length sentence))) sentence ;;
                    ret (join " " extended)) w1).
  { unfold generate_sentence, bind at 1. now rewrite Hseeded. }
  rewrite Hgen. clear Hgen. unfold bind.
  split.
  - intros s w'.
    destruct (extend self _ sentence w1) as [[extended | e] w2] eqn:Hextend;
      [ | discriminate ].
    run. intros [= <- _].
    destruct (extend_bound self _ sentence w1 extended w2 Hinv Hextend)
      as [Hbound Hspaceless].
    pose proof (count_tokens_join extended (Hspaceless Hplain)). lia.
  - intros Halpha.
    destruct (extend_total self
                (Z.to_nat (max_length - Z.of_nat (length sentence))) sentence w1
                Hinv Halpha) as (extended & w2 & Hextend); [ lia | ].
    rewrite Hextend. run. eauto.
Qed.

Example generate_sentence_length_bound_example :
  exists s w',
    generate_sentence cat_model (Some ["the"]) 5 (world0 tape0) = (Ret s, w')
    ∧ (Z.of_nat (count_tokens s) <= Z.max 5 (Z.of_nat (n cat_model)))%Z.
Proof.
  destruct (generate_sentence_length_bound cat_model (Some ["the"]) 5 (world0 tape0))
    as [Hbound Hreturns].
  - apply cat_model_reachable.
  - vm_compute. discriminate.
  - vm_compute. lia.
  - intros seed [= <-]. repeat constructor.
  - destruct Hreturns as (s & w' & Hgen); [ vm_compute; discriminate | ].
    exists s, w'. split; [ exact Hgen | exact (Hbound s w' Hgen) ].
Defined.

(** C4, the claim as stated fails: on a context shorter than [n] the value
    returned is [None], the very value returned when no prediction is
    possible (here: an unseen context on a model that was never trained). *)
Lemma predict_next_word_short_same_as_absent :
  length ["the"] < n cat_model
  ∧ fst (predict_next_word cat_model ["the"] (world0 tape0)) = Ret None
  ∧ fst (predict_next_word (init 2 1) ["zzz"; "qqq"] (world0 tape0)) = Ret None.
Proof. repeat split; vm_compute; try reflexivity; lia. Qed.

(** C4, amended. For every model and every context of fewer than [n]
    tokens, [predict_next_word] prints the warning
    ["Warning: Context needs <n> words"], draws nothing from the random
    source and returns [None], the same value as the absent result. *)
Theorem predict_next_word_short_context self context w :
  length context < n self ->
  predict_next_word self context w
  = (Ret None, World (entropy w) (cursor w) (stdout w ++ [context_warning self])).
Proof.
  intros Hlen. unfold predict_next_word.
  rewrite (predict_branch_short self context Hlen). reflexivity.
Qed.

Lemma predict_next_word_short_context_witness :
  predict_next_word cat_model ["the"] (world0 tape0)
  = (Ret None, World tape0 0 ["Warning: Context needs 2 words"]).
Proof.
  apply (predict_next_word_short_context cat_model ["the"] (world0 tape0)).
  vm_compute. lia.
Defined.

Lemma count_record pairs context word : forall table,
  count (record table pairs) context word
  = (count table context word
     + Z.of_nat (length (filter (fun p => p = (context, word)) pairs)))%Z.
Proof.
  induction pairs as [ | [c x] pairs IH ]; intros table.
  - simpl. lia.
  - change (record table ((c, x) :: pairs))
      with (record (increment table c x) pairs).
    rewrite IH, count_increment, filter_cons.
    destruct (decide ((c, x) = (context, word))) as [[= -> ->] | Hne].
    + rewrite bool_decide_eq_true_2 by done. simpl length. lia.
    + rewrite bool_decide_eq_false_2 by (intros [-> ->]; done). lia.
Qed.

(** C5. For every call of [train] whose token sequence has length
    [L >= n + 1], the call returns without a warning after exactly [L - n]
    count increments: the new table is the old one after incrementing, for
    each index [i] from [0] to [L - n - 1] in turn, the count of the n-gram
    that starts at [i] and the token at index [i + n]; no increment is made
    for the final n-gram, at position [L - n].  So every count grows by the
    number of positions [i < L - n] at which its context and token occur. *)
Theorem train_records_transitions self text w :
  let words := findall_words (lower text) in
  n self + 1 <= length words ->
  exists self',
    train self text w = (Ret self', w)
    ∧ transitions self'
      = record (transitions self) (spec_transitions (n self) words)
    ∧ length (spec_transitions (n self) words) = length words - n self
    ∧ (forall i, i < length words - n self ->
         exists next_word,
           words !! (i + n self) = Some next_word
           ∧ spec_transitions (n self) words !! i
             = Some (take (n self) (drop i words), next_word))
    ∧ spec_transitions (n self) words !! (length words - n self) = None
    ∧ (forall context word,
         count (transitions self') context word
         = (count (transitions self) context word
            + Z.of_nat (length (filter (fun p => p = (context, word))
                                  (spec_transitions (n self) words))))%Z).
Proof.
  intros words Hlen.
  assert (Hlength : length (spec_transitions (n self) words) = length words - n self).
  { unfold spec_transitions. now rewrite length_map, length_seq. }
  eexists. split; [ apply (train_long self text w Hlen) | ]. simpl. fold words.
  split; [ reflexivity | ]. split; [ exact Hlength | ].
  split; [ | split ].
  - intros i Hi.
    destruct (lookup_lt_is_Some_2 words (i + n self)) as [next_word Hw]; [ lia | ].
    exists next_word. split; [ exact Hw | ].
    unfold spec_transitions.
    rewrite list_lookup_fmap, lookup_seq_lt by assumption. simpl.
    now rewrite (nth_lookup_Some _ _ "" _ Hw).
  - apply lookup_ge_None. lia.
  - intros context word. apply count_record.
Qed.

Lemma train_records_transitions_witness :
  exists self',
    train (init 2 1) cat_text (world0 tape0) = (Ret self', world0 tape0)
    ∧ transitions self'
      = record ∅ (spec_transitions 2 ["the"; "cat"; "sat"; "the"; "cat"; "ran"]).
Proof.
  destruct (train_records_transitions (init 2 1) cat_text (world0 tape0))
    as (self' & Htrain & Htable & _).
  - vm_compute. lia.
  - exists self'. split; [ exact Htrain | exact Htable ].
Defined.

(** C6, the claim as stated fails: after training on the example text the
    final n-gram [("cat", "ran")] is not a key of the Context Table, which
    therefore differs from the table the specification lists. *)
Lemma example_table_lacks_final_ngram :
  train (init 2 1) cat_text (world0 tape0) = (Ret cat_model, world0 tape0)
  ∧ transitions cat_model !! ["cat"; "ran"] = None
  ∧ spec_cat_table !! ["cat"; "ran"] = Some ∅
  ∧ transitions cat_model ≠ spec_cat_table.
Proof.
  split; [ apply train_cat | ].
  split; [ vm_compute; reflexivity | ].
  split; [ vm_compute; reflexivity | ].
  intros H.
  assert (Hkey : transitions cat_model !! ["cat"; "ran"] = Some ∅)
    by (rewrite H; vm_compute; reflexivity).
  vm_compute in Hkey. discriminate.
Qed.

(** C6, amended. After constructing a model with [n = 2], [alpha = 1.0] and
    training once on ["the cat sat. the cat ran."], the Context Table is
    exactly [{(the,cat) -> {sat:1, ran:1}, (cat,sat) -> {the:1},
    (sat,the) -> {cat:1}}] (the final n-gram [(cat,ran)] is not a key), the
    Starting Contexts are [[(the,cat)]] and the Vocabulary is exactly
    [{the, cat, sat, ran}]. *)
Theorem train_example_table w :
  exists self',
    train (init 2 1) cat_text w = (Ret self', w)
    ∧ transitions self'
      = {[ ["the"; "cat"] := {[ "sat" := 1%Z; "ran" := 1%Z ]};
           ["cat"; "sat"] := {[ "the" := 1%Z ]};
           ["sat"; "the"] := {[ "cat" := 1%Z ]} ]}
    ∧ transitions self' !! ["cat"; "ran"] = None
    ∧ starting_ngrams self' = [ ["the"; "cat"] ]
    ∧ vocabulary self' = {[ "the"; "cat"; "sat"; "ran" ]}.
Proof.
  exists cat_model. split; [ apply train_cat | ].
  split; [ reflexivity | ].
  split; [ vm_compute; reflexivity | ].
  split; reflexivity.
Qed.

(** C7. For every call of [train] whose token sequence is shorter than
    [n + 1] tokens, [train] prints the warning and returns without raising,
    leaves the Context Table and the Starting Contexts unchanged, and adds
    every token of the call to the Vocabulary. *)
Theorem train_short_text self text w :
  let words := findall_words (lower text) in
  length words < n self + 1 ->
  exists self',
    train self text w
    = (Ret self', World (entropy w) (cursor w) (stdout w ++ [train_warning self]))
    ∧ transitions self' = transitions self
    ∧ starting_ngrams self' = starting_ngrams self
    ∧ vocabulary self' = vocabulary self ∪ list_to_set words
    ∧ (forall word, word ∈ words -> word ∈ vocabulary self')
    ∧ n self' = n self ∧ alpha self' = alpha self.
Proof.
  intros words Hlen. eexists. split; [ apply (train_short self text w Hlen) | ].
  simpl. fold words. repeat split. intros word Hin. set_solver.
Qed.

Lemma train_short_text_witness :
  exists self',
    train (init 3 1) "Hello, world" (world0 tape0)
    = (Ret self', World tape0 0 ["Warning: Text too short to train 3-gram model"])
    ∧ transitions self' = ∅
    ∧ starting_ngrams self' = []
    ∧ vocabulary self' = ∅ ∪ list_to_set ["hello"; "world"].
Proof.
  destruct (train_short_text (init 3 1) "Hello, world" (world0 tape0))
    as (self' & Htrain & Htable & Hstart & Hvocab & _).
  - vm_compute. lia.
  - exists self'. repeat split; assumption.
Defined.

(** C8. For every model whose Context Table is empty, in particular a
    freshly constructed one, [generate_sentence] with any arguments returns
    the sentinel ["Model not trained yet."]: a string, no exception, no
    draw, no output. *)
Theorem generate_sentence_untrained self start_words max_length w :
  transitions self = ∅ ->
  generate_sentence self start_words max_length w
  = (Ret "Model not trained yet.", w).
Proof.
  intros Hempty. unfold generate_sentence, seed_sentence.
  rewrite (bool_decide_eq_true_2 _ Hempty). reflexivity.
Qed.

Lemma generate_sentence_untrained_witness :
  generate_sentence (init 2 1) (Some ["the"]) 25 (world0 tape0)
  = (Ret "Model not trained yet.", world0 tape0).
Proof.
  apply (generate_sentence_untrained (init 2 1) (Some ["the"]) 25 (world0 tape0)).
  reflexivity.
Defined.

(** C9. In every model reached by calls of [train], a non-empty Starting
    Contexts list implies a non-empty Vocabulary; so [predict_next_word]
    never takes the fallback branch that returns the last token of a random
    Starting Context. *)
Theorem start_fallback_unreachable self :
  reachable self ->
  (starting_ngrams self ≠ [] -> vocabulary self ≠ ∅)
  ∧ (forall context, predict_branch self context ≠ UnseenFromStart).
Proof.
  intros Hreach. pose proof (reachable_invariant self Hreach) as Hinv.
  split; [ apply (inv_start_vocabulary self Hinv) | ].
  intros context. unfold predict_branch.
  destruct (length context <? n self); [ discriminate | ].
  destruct (transitions self !! _); [ discriminate | ].
  destruct (decide (vocabulary self = ∅)) as [Hempty | Hne].
  - rewrite (bool_decide_eq_true_2 _ Hempty). simpl.
    destruct (decide (starting_ngrams self = [])) as [Hstart | Hstart].
    + rewrite (bool_decide_eq_true_2 _ Hstart). discriminate.
    + now apply (inv_start_vocabulary self Hinv) in Hstart.
  - rewrite (bool_decide_eq_false_2 _ Hne). discriminate.
Qed.

Lemma start_fallback_unreachable_witness :
  predict_branch cat_model ["zzz"; "qqq"] ≠ UnseenFromStart.
Proof.
  apply (start_fallback_unreachable cat_model). apply cat_model_reachable.
Defined.

(** C10. In every model reached by calls of [train], every Starting Context
    is a tuple of exactly [n] tokens; so padding a seed of fewer than [n]
    tokens in [generate_sentence] always indexes the chosen Starting Context
    within bounds: the padding loop returns a sentence of [n] tokens, and
    the seeding phase never raises. *)
Theorem starting_ngrams_have_n_tokens self :
  reachable self ->
  Forall (fun start => length start = n self) (starting_ngrams self)
  ∧ (forall seed w,
       length seed < n self -> starting_ngrams self ≠ [] ->
       exists padded w',
         pad_seed self (n self - length seed) seed w = (Ret padded, w')
         ∧ length padded = n self)
  ∧ (forall start_words w,
       exists outcome w', seed_sentence self start_words w = (Ret outcome, w')).
Proof.
  intros Hreach. pose proof (reachable_invariant self Hreach) as Hinv.
  split; [ apply (inv_start_length self Hinv) | ]. split.
  - intros seed w Hshort Hstart.
    destruct (pad_seed_ok self (n self - length seed) seed w Hinv Hstart)
      as (padded & w' & Hpad & Hlen & _); [ lia | ].
    eauto.
  - intros start_words w. now apply seed_sentence_returns.
Qed.

Lemma starting_ngrams_have_n_tokens_witness :
  Forall (fun start => length start = n cat_model) (starting_ngrams cat_model).
Proof.
  apply (starting_ngrams_have_n_tokens cat_model). apply cat_model_reachable.
Defined.

(** * Further properties of the code *)

(** ** The tokenizer and the n-grams *)

Lemma lower_char_idempotent c : lower_char (lower_char c) = lower_char c.
Proof. destruct c as [[] [] [] [] [] [] [] []]; vm_compute; reflexivity. Qed.

Lemma lower_idempotent s : lower (lower s) = lower s.
Proof.
  induction s as [ | c s IH ]; [ reflexivity | ].
  simpl. now rewrite lower_char_idempotent, IH.
Qed.

Lemma lower_app s t : lower (s +:+ t) = lower s +:+ lower t.
Proof.
  induction s as [ | c s IH ]; [ reflexivity | ].
  change (String c s +:+ t) with (String c (s +:+ t)).
  simpl. rewrite IH. reflexivity.
Qed.

Lemma findall_words_from_lowered s : forall run,
  lower run = run -> lower s = s ->
  Forall (fun t => lower t = t) (findall_words_from run s).
Proof.
  induction s as [ | c s IH ]; intros run Hrun Hs; simpl.
  - destruct (String.eqb run ""); constructor; auto.
  - simpl in Hs. injection Hs as Hc Hs.
    destruct (is_word_char c).
    + apply IH; [ | exact Hs ]. rewrite lower_app, Hrun. simpl. now rewrite Hc.
    + destruct (String.eqb run "").
      * apply IH; [ reflexivity | exact Hs ].
      * constructor; [ exact Hrun | apply IH; [ reflexivity | exact Hs ] ].
Qed.

Lemma findall_words_word_tokens text :
  Forall word_token (findall_words (lower text)).
Proof.
  pose proof (findall_words_from_tokens (lower text) "" eq_refl) as Hw.
  pose proof (findall_words_from_lowered (lower text) "" eq_refl
                (lower_idempotent text)) as Hl.
  rewrite Forall_forall in Hw, Hl. apply Forall_forall. intros t Ht.
  destruct (Hw t Ht) as [Hne Hword]. repeat split; auto.
Qed.

(** X1. The tokens [train] extracts from a text are never empty, consist of
    word characters only and are lower-case: [lower] leaves them unchanged;
    and tokenizing is insensitive to a second lowering of the text. *)
Theorem tokens_are_lowercase_words text :
  Forall word_token (findall_words (lower text))
  ∧ findall_words (lower (lower text)) = findall_words (lower text).
Proof.
  split; [ apply findall_words_word_tokens | now rewrite lower_idempotent ].
Qed.

Lemma string_app_assoc s t u : (s +:+ t) +:+ u = s +:+ (t +:+ u).
Proof.
  induction s as [ | c s IH ]; [ reflexivity | ].
  change (String c ((s +:+ t) +:+ u) = String c (s +:+ (t +:+ u))).
  now rewrite IH.
Qed.

Lemma string_app_empty_r s : s +:+ "" = s.
Proof.
  induction s as [ | c s IH ]; [ reflexivity | ].
  change (String c (s +:+ "") = String c s). now rewrite IH.
Qed.

Lemma string_app_empty_inv s t : s +:+ t = "" -> s = "".
Proof. destruct s; [ reflexivity | discriminate ]. Qed.

(** Reading a word [t] only lengthens the current run. *)
Lemma findall_words_from_word t : forall run rest,
  word_string t = true ->
  findall_words_from run (t +:+ rest) = findall_words_from (run +:+ t) rest.
Proof.
  induction t as [ | c t IH ]; intros run rest Hword.
  - now rewrite string_app_empty_r.
  - simpl in Hword. apply andb_true_iff in Hword as [Hc Ht].
    change (String c t +:+ rest) with (String c (t +:+ rest)).
    simpl. rewrite Hc, IH by exact Ht.
    rewrite string_app_assoc. reflexivity.
Qed.

Lemma findall_words_from_space run rest :
  run ≠ "" ->
  findall_words_from run (String " "%char rest) = run :: findall_words_from "" rest.
Proof.
  intros Hne. simpl. destruct (String.eqb_spec run ""); [ contradiction | reflexivity ].
Qed.

(** X2. Round trip of [join] and the tokenizer: joining non-empty tokens
    made of word characters with single spaces and extracting the words of
    the result gives the tokens back. *)
Theorem findall_words_join l :
  Forall (fun t => t ≠ "" ∧ word_string t = true) l ->
  findall_words (join " " l) = l.
Proof.
  unfold findall_words, join.
  induction 1 as [ | t l [Hne Hword] Hl IH ]; [ reflexivity | ].
  destruct l as [ | t' l' ].
  - change (String.concat " " [t]) with t.
    rewrite <- (string_app_empty_r t) at 1.
    rewrite findall_words_from_word by exact Hword.
    change ("" +:+ t) with t. simpl.
    destruct (String.eqb_spec t ""); [ contradiction | reflexivity ].
  - change (String.concat " " (t :: t' :: l'))
      with (t +:+ String " "%char (String.concat " " (t' :: l'))).
    rewrite findall_words_from_word by exact Hword.
    change ("" +:+ t) with t.
    rewrite findall_words_from_space by exact Hne.
    now rewrite IH.
Qed.

Lemma findall_words_join_witness :
  findall_words (join " " ["the"; "cat_9"; "sat"]) = ["the"; "cat_9"; "sat"].
Proof.
  apply (findall_words_join ["the"; "cat_9"; "sat"]).
  repeat constructor; discriminate.
Defined.

(** X3. [_get_ngrams] returns the [L - n + 1] windows of [n] consecutive
    tokens, in order; each has exactly [n] tokens, consecutive windows
    overlap in [n - 1] tokens, and there is none when [L < n]. *)
Theorem get_ngrams_shape self (words : list string) :
  length (_get_ngrams self words) = length words + 1 - n self
  ∧ Forall (fun g => length g = n self) (_get_ngrams self words)
  ∧ (forall i, i + n self <= length words ->
       _get_ngrams self words !! i = Some (take (n self) (drop i words)))
  ∧ (forall i g g',
       _get_ngrams self words !! i = Some g ->
       _get_ngrams self words !! S i = Some g' ->
       drop 1 g = take (n self - 1) g')
  ∧ (length words < n self -> _get_ngrams self words = []).
Proof.
  split; [ apply _get_ngrams_length | ].
  split; [ | split; [ | split ] ].
  - unfold _get_ngrams. apply Forall_map, Forall_forall.
    intros i Hi%elem_of_seq. simpl. rewrite length_take, length_drop. lia.
  - intros i Hi. apply _get_ngrams_lookup. lia.
  - intros i g g' Hg Hg'.
    assert (Hi : S i < length words + 1 - n self).
    { apply lookup_lt_Some in Hg'. now rewrite _get_ngrams_length in Hg'. }
    rewrite _get_ngrams_lookup in Hg by lia.
    rewrite _get_ngrams_lookup in Hg' by lia.
    injection Hg as <-. injection Hg' as <-.
    rewrite take_take, Nat.min_l by lia.
    replace (drop (S i) words) with (drop 1 (drop i words))
      by (rewrite drop_drop; f_equal; lia).
    destruct (n self) as [ | k ]; [ reflexivity | ].
    replace (S k - 1) with k by lia.
    now rewrite (take_drop_commute (drop i words) k 1).
  - intros Hshort. apply length_zero_iff_nil.
    rewrite _get_ngrams_length. lia.
Qed.

(** ** Training *)

(** Both branches of [train] in one equation: a text that is too short has
    no transition to record. *)
Lemma train_outcome self text w :
  exists self' w',
    train self text w = (Ret self', w')
    ∧ n self' = n self ∧ alpha self' = alpha self
    ∧ transitions self'
      = record (transitions self)
          (spec_transitions (n self) (findall_words (lower text)))
    ∧ vocabulary self' = vocabulary self ∪ list_to_set (findall_words (lower text))
    ∧ starting_ngrams self'
      = starting_ngrams self
        ++ (if length (findall_words (lower text)) <? n self + 1 then []
            else [take (n self) (findall_words (lower text))])
    ∧ entropy w' = entropy w ∧ cursor w' = cursor w.
Proof.
  destruct (length (findall_words (lower text)) <? n self + 1) eqn:Hlen.
  - apply Nat.ltb_lt in Hlen. rewrite train_short by exact Hlen.
    eexists _, _. split; [ reflexivity | ]. simpl.
    unfold spec_transitions.
    replace (length (findall_words (lower text)) - n self) with 0 by lia.
    rewrite app_nil_r. repeat split; reflexivity.
  - apply Nat.ltb_ge in Hlen. rewrite train_long by exact Hlen.
    eexists _, _. split; [ reflexivity | ]. simpl. repeat split; reflexivity.
Qed.

(** X4. [train] never raises, whatever the text: its index accesses stay in
    range.  It keeps [n] and [alpha], draws nothing from the random source,
    and only adds: the Vocabulary grows, the Starting Contexts are extended
    by at most one entry, and no count decreases. *)
Theorem train_only_adds self text w :
  exists self' w',
    train self text w = (Ret self', w')
    ∧ n self' = n self ∧ alpha self' = alpha self
    ∧ cursor w' = cursor w
    ∧ vocabulary self ⊆ vocabulary self'
    ∧ (forall word, word ∈ findall_words (lower text) -> word ∈ vocabulary self')
    ∧ (exists added, starting_ngrams self' = starting_ngrams self ++ added
                     ∧ length added <= 1)
    ∧ (forall context word,
         (count (transitions self) context word
          <= count (transitions self') context word)%Z).
Proof.
  destruct (train_outcome self text w)
    as (self' & w' & Htrain & Hn & Halpha & Htable & Hvocab & Hstart & _ & Hcursor).
  exists self', w'. split; [ exact Htrain | ].
  split; [ exact Hn | ]. split; [ exact Halpha | ]. split; [ exact Hcursor | ].
  split; [ rewrite Hvocab; apply union_subseteq_l | ].
  split.
  { intros word Hin. rewrite Hvocab.
    apply elem_of_union_r, elem_of_list_to_set, Hin. }
  split.
  - eexists. split; [ exact Hstart | ].
    destruct (_ <? _); simpl; lia.
  - intros context word. rewrite Htable, count_record. lia.
Qed.

Lemma reachable_vocabulary_words self :
  reachable self -> forall word, word ∈ vocabulary self -> word_token word.
Proof.
  induction 1 as [ | self text w self' w' _ IH Htrain ]; intros word Hin.
  - simpl in Hin. now apply not_elem_of_empty in Hin.
  - destruct (train_outcome self text w)
      as (self0 & w0 & Htrain0 & _ & _ & _ & Hvocab & _).
    rewrite Htrain in Htrain0. injection Htrain0 as <- <-.
    rewrite Hvocab in Hin.
    apply elem_of_union in Hin as [Hin | Hin%elem_of_list_to_set]; [ auto | ].
    pose proof (findall_words_word_tokens text) as Hwords.
    rewrite Forall_forall in Hwords. auto.
Qed.

(** X5. In every model reached by calls of [train]: each key of the Context
    Table is a tuple of exactly [n] tokens, no follower table is empty,
    every count is at least 1, every follower and every token of a Starting
    Context is in the Vocabulary, every Vocabulary token is a non-empty
    lower-case word, and a non-empty table comes with a Starting Context. *)
Theorem reachable_data_model self :
  reachable self ->
  (forall context row, transitions self !! context = Some row ->
     length context = n self ∧ row ≠ ∅ ∧ (1 <= total_count row)%Z
     ∧ forall word c, row !! word = Some c -> (1 <= c)%Z ∧ word ∈ vocabulary self)
  ∧ Forall (Forall (fun word => word ∈ vocabulary self)) (starting_ngrams self)
  ∧ (forall word, word ∈ vocabulary self -> word_token word)
  ∧ (transitions self ≠ ∅ -> starting_ngrams self ≠ []).
Proof.
  intros Hreach. pose proof (reachable_invariant self Hreach) as Hinv.
  split; [ | split; [ | split ] ].
  - intros context row Hrow.
    destruct (inv_table self Hinv context row Hrow) as (Hlen & Hne & Hcounts).
    repeat split; try assumption; try (now destruct (Hcounts word c)).
    apply total_count_positive; [ exact Hne | ].
    intros word c Hc. now destruct (Hcounts word c Hc).
  - apply (inv_start_tokens self Hinv).
  - now apply reachable_vocabulary_words.
  - apply (inv_start_trained self Hinv).
Qed.

Lemma reachable_data_model_witness : word_token "cat".
Proof.
  destruct (reachable_data_model cat_model) as (_ & _ & Hwords & _).
  - apply cat_model_reachable.
  - apply Hwords. vm_compute. reflexivity.
Defined.

Lemma total_count_bump (row : gmap string Z) word :
  total_count (<[word := (default 0 (row !! word) + 1)%Z]> row)
  = (total_count row + 1)%Z.
Proof.
  destruct (row !! word) as [c | ] eqn:Hc; simpl.
  - rewrite <- (insert_delete_eq row word (c + 1)%Z).
    rewrite total_count_insert by apply lookup_delete_eq.
    rewrite <- (insert_id row word c Hc) at 2.
    rewrite <- (insert_delete_eq row word c).
    rewrite total_count_insert by apply lookup_delete_eq. lia.
  - rewrite total_count_insert by exact Hc. lia.
Qed.

Lemma row_total_increment table c x context :
  row_total (increment table c x) context
  = (row_total table context + if bool_decide (c = context) then 1 else 0)%Z.
Proof.
  unfold row_total, increment.
  destruct (decide (c = context)) as [-> | Hne].
  - rewrite lookup_insert_eq, bool_decide_eq_true_2 by done. simpl.
    apply total_count_bump.
  - rewrite lookup_insert_ne, bool_decide_eq_false_2 by done. lia.
Qed.

Lemma row_total_record pairs context : forall table,
  row_total (record table pairs) context
  = (row_total table context
     + Z.of_nat (length (filter (fun p => p.1 = context) pairs)))%Z.
Proof.
  induction pairs as [ | [c x] pairs IH ]; intros table.
  - simpl. lia.
  - change (record table ((c, x) :: pairs))
      with (record (increment table c x) pairs).
    rewrite IH, row_total_increment, filter_cons. simpl.
    destruct (decide (c = context)) as [-> | Hne].
    + rewrite bool_decide_eq_true_2 by done. simpl length. lia.
    + rewrite bool_decide_eq_false_2 by done. lia.
Qed.

Lemma increment_key table c x context :
  is_Some (increment table c x !! context)
  <-> is_Some (table !! context) ∨ c = context.
Proof.
  unfold increment. destruct (decide (c = context)) as [-> | Hne].
  - rewrite lookup_insert_eq. split; eauto.
  - rewrite lookup_insert_ne by done. split; [ auto | ].
    intros [H | H]; [ exact H | contradiction ].
Qed.

Lemma record_key pairs context : forall table,
  is_Some (record table pairs !! context)
  <-> is_Some (table !! context) ∨ context ∈ map fst pairs.
Proof.
  induction pairs as [ | [c x] pairs IH ]; intros table.
  - simpl. split; [ auto | ]. intros [H | H]; [ exact H | ].
    now apply not_elem_of_nil in H.
  - change (record table ((c, x) :: pairs))
      with (record (increment table c x) pairs).
    rewrite IH, increment_key. simpl. rewrite elem_of_cons.
    split; [ intros [[H | H] | H] | intros [H | [H | H]] ]; auto.
Qed.

(** X6. After any call of [train], for every context: the sum of its
    follower counts has grown by the number of positions [i < L - n] at
    which the context starts in the token sequence (an occurrence as final
    n-gram does not count), and the context is a key of the table exactly
    when it was one before or starts at such a position. *)
Theorem train_row_totals self text w :
  exists self' w',
    train self text w = (Ret self', w')
    ∧ forall context,
        row_total (transitions self') context
        = (row_total (transitions self) context
           + Z.of_nat (occurrences (n self) (findall_words (lower text)) context))%Z
        ∧ (is_Some (transitions self' !! context)
           <-> is_Some (transitions self !! context)
               ∨ 0 < occurrences (n self) (findall_words (lower text)) context).
Proof.
  destruct (train_outcome self text w)
    as (self' & w' & Htrain & _ & _ & Htable & _).
  exists self', w'. split; [ exact Htrain | ].
  intros context. rewrite Htable. split; [ apply row_total_record | ].
  rewrite record_key. unfold occurrences.
  set (pairs := spec_transitions (n self) (findall_words (lower text))).
  assert (Hin : context ∈ map fst pairs
                <-> 0 < length (filter (fun p => p.1 = context) pairs)).
  { clear. induction pairs as [ | [c x] pairs IH ].
    - simpl. split; [ intros H; now apply not_elem_of_nil in H | lia ].
    - rewrite filter_cons. simpl. rewrite elem_of_cons.
      destruct (decide (c = context)) as [-> | Hne]; simpl.
      + split; [ lia | auto ].
      + rewrite <- IH. split; [ intros [-> | H]; [ contradiction | exact H ] | auto ]. }
  now rewrite Hin.
Qed.

Lemma increment_comm table c1 x1 c2 x2 :
  increment (increment table c1 x1) c2 x2
  = increment (increment table c2 x2) c1 x1.
Proof.
  unfold increment. destruct (decide (c1 = c2)) as [<- | Hc].
  - rewrite !lookup_insert_eq, !insert_insert_eq. simpl. f_equal.
    destruct (decide (x1 = x2)) as [<- | Hx]; [ reflexivity | ].
    rewrite !lookup_insert_ne by done. now apply insert_insert_ne.
  - rewrite !lookup_insert_ne by done. now apply insert_insert_ne.
Qed.

Lemma record_increment pairs c x : forall table,
  record (increment table c x) pairs = increment (record table pairs) c x.
Proof.
  induction pairs as [ | [c' x'] pairs IH ]; intros table; [ reflexivity | ].
  change (record (increment (increment table c x) c' x') pairs
          = increment (record (increment table c' x') pairs) c x).
  now rewrite increment_comm, IH.
Qed.

Lemma record_comm pairs1 pairs2 : forall table,
  record (record table pairs1) pairs2 = record (record table pairs2) pairs1.
Proof.
  induction pairs1 as [ | [c x] pairs1 IH ]; intros table; [ reflexivity | ].
  change (record (record (increment table c x) pairs1) pairs2
          = record (increment (record table pairs2) c x) pairs1).
  now rewrite IH, record_increment.
Qed.

(** X7. Training is order-independent: training on two texts in either
    order never raises and gives the same Context Table and the same
    Vocabulary; only the order of the Starting Contexts differs. *)
Theorem train_order_independent self text1 text2 w :
  exists self12 self21 w12 w21,
    (self1 <- train self text1 ;; train self1 text2) w = (Ret self12, w12)
    ∧ (self2 <- train self text2 ;; train self2 text1) w = (Ret self21, w21)
    ∧ transitions self12 = transitions self21
    ∧ vocabulary self12 = vocabulary self21
    ∧ starting_ngrams self12 ≡ₚ starting_ngrams self21.
Proof.
  destruct (train_outcome self text1 w)
    as (self1 & w1 & Htrain1 & Hn1 & _ & Htable1 & Hvocab1 & Hstart1 & _).
  destruct (train_outcome self1 text2 w1)
    as (self12 & w12 & Htrain12 & _ & _ & Htable12 & Hvocab12 & Hstart12 & _).
  destruct (train_outcome self text2 w)
    as (self2 & w2 & Htrain2 & Hn2 & _ & Htable2 & Hvocab2 & Hstart2 & _).
  destruct (train_outcome self2 text1 w2)
    as (self21 & w21 & Htrain21 & _ & _ & Htable21 & Hvocab21 & Hstart21 & _).
  exists self12, self21, w12, w21.
  split; [ unfold bind; now rewrite Htrain1 | ].
  split; [ unfold bind; now rewrite Htrain2 | ].
  split; [ | split ].
  - rewrite Htable12, Htable1, Htable21, Htable2, Hn1, Hn2. apply record_comm.
  - rewrite Hvocab12, Hvocab1, Hvocab21, Hvocab2.
    rewrite <- !(assoc_L (∪)). f_equal. apply (comm_L (∪)).
  - rewrite Hstart12, Hstart1, Hstart21, Hstart2, Hn1, Hn2.
    rewrite <- !app_assoc. apply Permutation_app_head, Permutation_app_comm.
Qed.

(** ** Prediction *)

Lemma last_n_idempotent {A} k (l : list A) : last_n k (last_n k l) = last_n k l.
Proof.
  unfold last_n. destruct (k =? 0) eqn:Hk; [ reflexivity | ].
  apply Nat.eqb_neq in Hk. rewrite length_drop.
  replace (length l - (length l - k) - k) with 0 by lia. reflexivity.
Qed.

Lemma last_n_all {A} k (l : list A) : length l <= k -> last_n k l = l.
Proof.
  intros Hlen. unfold last_n. destruct (k =? 0); [ reflexivity | ].
  now replace (length l - k) with 0 by lia.
Qed.

Lemma last_n_app {A} k (older l : list A) :
  1 <= k -> length l = k -> last_n k (older ++ l) = l.
Proof.
  intros Hk Hlen. unfold last_n. destruct (k =? 0) eqn:Hz.
  - apply Nat.eqb_eq in Hz. lia.
  - rewrite length_app. replace (length older + length l - k) with (length older) by lia.
    apply drop_app_length.
Qed.

Lemma predict_branch_last_n self context :
  n self <= length context ->
  predict_branch self context = predict_branch self (last_n (n self) context).
Proof.
  intros Hlen. unfold predict_branch.
  pose proof (last_n_length (n self) context Hlen) as Hlast.
  apply Nat.ltb_ge in Hlen as Hlen'. apply Nat.ltb_ge in Hlast as Hlast'.
  rewrite Hlen', Hlast'.
  destruct (n self <? length context) eqn:Hlong.
  - destruct (n self <? length (last_n (n self) context)).
    + now rewrite last_n_idempotent.
    + reflexivity.
  - apply Nat.ltb_ge in Hlong.
    rewrite (last_n_all (n self) context Hlong).
    apply Nat.ltb_ge in Hlong. now rewrite Hlong.
Qed.

(** X8. Only the last [n] tokens of a context matter: a context of at least
    [n] tokens is answered exactly as its last [n] tokens are, so (for
    [n >= 1]) tokens put in front of an [n]-token context change nothing. *)
Theorem predict_uses_last_n self context :
  n self <= length context ->
  predict_next_word self context
  = predict_next_word self (last_n (n self) context)
  ∧ (1 <= n self ->
     forall older,
       predict_next_word self (older ++ last_n (n self) context)
       = predict_next_word self context).
Proof.
  intros Hlen.
  assert (Hsame : forall c, n self <= length c ->
            predict_next_word self c = predict_next_word self (last_n (n self) c)).
  { intros c Hc. unfold predict_next_word. now rewrite <- predict_branch_last_n. }
  split; [ now apply Hsame | ].
  intros Hn older.
  rewrite (Hsame (older ++ last_n (n self) context)).
  - rewrite last_n_app; [ symmetry; now apply Hsame | exact Hn | ].
    apply last_n_length_pos. lia.
  - rewrite length_app. pose proof (last_n_length (n self) context Hlen). lia.
Qed.

Lemma predict_uses_last_n_witness :
  predict_next_word cat_model ["a"; "the"; "cat"]
  = predict_next_word cat_model (last_n 2 ["a"; "the"; "cat"]).
Proof.
  apply (predict_uses_last_n cat_model ["a"; "the"; "cat"]).
  vm_compute. lia.
Defined.

Lemma random_choice_world {A} (seq : list A) w :
  snd (random_choice seq w) = w ∨ snd (random_choice seq w) = advance w.
Proof.
  unfold random_choice. destruct seq as [ | a seq' ]; [ left; reflexivity | ].
  right. run. destruct (_ !! _); reflexivity.
Qed.

Lemma random_choices_world {A} (population : list A) weights w :
  snd (random_choices population weights w) = w
  ∨ snd (random_choices population weights w) = advance w.
Proof.
  unfold random_choices.
  destruct (negb _); [ left; reflexivity | ].
  destruct (last _) as [total | ]; [ | left; reflexivity ].
  destruct (Qle_bool total 0); [ left; reflexivity | ].
  right. run. destruct (_ !! _); reflexivity.
Qed.

Lemma bind_world {A B} (c : M A) (k : A -> M B) w :
  (forall a w1, snd (k a w1) = w1) ->
  snd ((x <- c ;; k x) w) = snd (c w).
Proof.
  intros Hk. unfold bind. destruct (c w) as [[a | e] w1]; simpl; [ apply Hk | reflexivity ].
Qed.

(** The world after [predict_next_word]: the warning on a short context,
    and otherwise at most one draw. *)
Lemma predict_next_word_world self context w :
  (length context < n self
   ∧ snd (predict_next_word self context w)
     = World (entropy w) (cursor w) (stdout w ++ [context_warning self]))
  ∨ (n self <= length context
     ∧ (snd (predict_next_word self context w) = w
        ∨ snd (predict_next_word self context w) = advance w)).
Proof.
  destruct (decide (length context < n self)) as [Hshort | Hlong].
  - left. split; [ exact Hshort | ].
    unfold predict_next_word.
    now rewrite (predict_branch_short self context Hshort).
  - right. split; [ lia | ].
    remember (snd (predict_next_word self context w)) as w' eqn:Hw'.
    unfold predict_next_word in Hw'.
    destruct (predict_branch self context) as [ | | | | c word_counts ] eqn:Hb.
    + exfalso. unfold predict_branch in Hb.
      destruct (length context <? n self) eqn:Hlt;
        [ apply Nat.ltb_lt in Hlt; contradiction | ].
      destruct (transitions self !! _); [ discriminate | ].
      destruct (negb _); [ discriminate | ].
      destruct (negb _); discriminate.
    + rewrite bind_world in Hw' by reflexivity. subst w'.
      apply random_choice_world.
    + rewrite bind_world in Hw' by (intros a w1; destruct (last a); reflexivity).
      subst w'. apply random_choice_world.
    + left. subst w'. reflexivity.
    + unfold bind at 1, lift in Hw'.
      destruct (probabilities self word_counts) as [probs | e];
        [ | left; subst w'; reflexivity ].
      rewrite bind_world in Hw' by reflexivity. subst w'.
      apply random_choices_world.
Qed.

(** X9. [predict_next_word] is read-only and cheap: it consumes at most one
    draw of the random source, prints nothing when the context has at least
    [n] tokens, and in a model reached by training every token it returns
    is a token of the Vocabulary. *)
Theorem predict_next_word_effects self context w :
  entropy (snd (predict_next_word self context w)) = entropy w
  ∧ (cursor (snd (predict_next_word self context w)) = cursor w
     ∨ cursor (snd (predict_next_word self context w)) = S (cursor w))
  ∧ (n self <= length context ->
     stdout (snd (predict_next_word self context w)) = stdout w)
  ∧ (reachable self ->
     forall word,
       fst (predict_next_word self context w) = Ret (Some word) ->
       word ∈ vocabulary self).
Proof.
  pose proof (predict_next_word_world self context w) as Hworld.
  split; [ | split; [ | split ] ].
  - destruct Hworld as [[_ ->] | [_ [-> | ->]]]; reflexivity.
  - destruct Hworld as [[_ ->] | [_ [-> | ->]]]; simpl; auto.
  - intros Hlen. destruct Hworld as [[Hshort _] | [_ [-> | ->]]]; [ lia | | ]; reflexivity.
  - intros Hreach word Hword.
    destruct (predict_next_word self context w) as [r w'] eqn:Hrun.
    simpl in Hword. subst r.
    eapply predict_in_vocabulary; [ now apply reachable_invariant | exact Hrun ].
Qed.

(** X10. Smoothing floor: in a model reached by training with [alpha > 0],
    for every recorded context every token gets a strictly positive weight,
    also a token that never followed the context. *)
Theorem smoothing_floor self context word_counts word :
  reachable self -> (0 < alpha self)%Q ->
  transitions self !! context = Some word_counts ->
  (0 < smoothed self word_counts word)%Q.
Proof.
  intros Hreach Halpha Hrow.
  pose proof (reachable_invariant self Hreach) as Hinv.
  pose proof (denominator_positive self context word_counts Hinv
                (Qlt_le_weak _ _ Halpha) Hrow) as Hden.
  destruct (inv_table self Hinv context word_counts Hrow) as (_ & _ & Hcounts).
  unfold smoothed. apply Qlt_shift_div_l.
  - eapply Qlt_le_trans; [ | exact Hden ]. reflexivity.
  - rewrite Qmult_0_l.
    assert (Hc : (0 <= default 0 (word_counts !! word))%Z).
    { destruct (word_counts !! word) as [c | ] eqn:Hc; simpl; [ | lia ].
      destruct (Hcounts word c Hc). lia. }
    apply Qlt_le_trans with (alpha self); [ exact Halpha | ].
    rewrite <- (Qplus_0_l (alpha self)) at 1.
    apply Qplus_le_compat; [ | apply Qle_refl ].
    change 0%Q with (inject_Z 0). now rewrite <- Zle_Qle.
Qed.

Lemma smoothing_floor_witness :
  (0 < smoothed cat_model {[ "sat" := 1%Z; "ran" := 1%Z ]} "the")%Q.
Proof.
  apply (smoothing_floor cat_model ["the"; "cat"]).
  - apply cat_model_reachable.
  - vm_compute. reflexivity.
  - vm_compute. reflexivity.
Defined.

(** [bisect] lands on the first cumulative weight above [x]. *)
Lemma bisect_loop_lands fuel a x : forall lo hi,
  hi - lo <= fuel -> lo <= hi ->
  (lo = 0 ∨ (nth (lo - 1) a 0 <= x)%Q) ->
  (x < nth hi a 0)%Q ->
  let r := bisect_loop fuel a x lo hi in
  lo <= r <= hi ∧ (r = 0 ∨ (nth (r - 1) a 0 <= x)%Q) ∧ (x < nth r a 0)%Q.
Proof.
  induction fuel as [ | fuel IH ]; intros lo hi Hfuel Hle Hlo Hhi.
  - simpl. replace hi with lo in Hhi by lia. repeat split; auto; lia.
  - rewrite bisect_loop_step.
    destruct (lo <? hi) eqn:Hlt.
    + apply Nat.ltb_lt in Hlt.
      destruct (midpoint_range lo hi Hlt) as [Hmid Hhalf].
      destruct (Qlt_le_dec x (nth ((lo + hi) / 2) a 0%Q)) as [Hx | Hx].
      * destruct (IH lo ((lo + hi) / 2)) as (Hr & Hbelow & Habove);
          [ lia | lia | exact Hlo | exact Hx | ].
        repeat split; auto; lia.
      * destruct (IH ((lo + hi) / 2 + 1) hi) as (Hr & Hbelow & Habove);
          [ lia | lia | | exact Hhi | ].
        { right. now replace ((lo + hi) / 2 + 1 - 1) with ((lo + hi) / 2) by lia. }
        repeat split; auto; lia.
    + apply Nat.ltb_ge in Hlt. replace hi with lo in Hhi by lia.
      repeat split; auto; lia.
Qed.

Lemma accumulate_from_nth weights : forall acc j,
  j < length weights ->
  nth j (accumulate_from acc weights) 0%Q
  = ((match j with
      | O => acc
      | S j' => nth j' (accumulate_from acc weights) 0%Q
      end) + nth j weights 0%Q)%Q.
Proof.
  induction weights as [ | x xs IH ]; intros acc j Hj; [ simpl in Hj; lia | ].
  destruct j as [ | j ]; [ reflexivity | ].
  simpl in Hj. simpl. rewrite IH by lia.
  destruct j; reflexivity.
Qed.

Lemma accumulate_nth weights j :
  j < length weights ->
  nth j (accumulate weights) 0%Q
  = match j with
    | O => nth 0 weights 0%Q
    | S j' => (nth j' (accumulate weights) 0%Q + nth j weights 0%Q)%Q
    end.
Proof.
  destruct weights as [ | x xs ]; intros Hj; [ simpl in Hj; lia | ].
  destruct j as [ | j ]; [ reflexivity | ].
  simpl in Hj. simpl. rewrite accumulate_from_nth by lia.
  destruct j; reflexivity.
Qed.

Lemma last_nth (l : list Q) total :
  last l = Some total -> nth (length l - 1) l 0%Q = total.
Proof.
  intros Hlast. apply last_Some in Hlast as [l' ->].
  rewrite length_app. simpl.
  replace (length l' + 1 - 1) with (length l') by lia.
  now rewrite nth_middle.
Qed.

(** The float drawn by [random.random()] lies in [[0, 1)]. *)
Lemma unit_draw (d : N) :
  (0 <= Z.of_N (d mod 2 ^ 53) # 2 ^ 53)%Q ∧ ((Z.of_N (d mod 2 ^ 53) # 2 ^ 53) < 1)%Q.
Proof.
  assert (H : (d mod 2 ^ 53 < 2 ^ 53)%N) by (apply N.mod_lt; discriminate).
  set (m := (d mod 2 ^ 53)%N) in *.
  apply N2Z.inj_lt in H.
  unfold Qle, Qlt. cbn [Qnum Qden].
  change (Z.of_N (2 ^ 53)) with (Z.pos (2 ^ 53)) in H.
  split; lia.
Qed.

(** [random.choices] never returns an item whose weight is not positive. *)
Lemma random_choices_positive {A} (population : list A) weights w x w' :
  random_choices population weights w = (Ret x, w') ->
  exists i, population !! i = Some x ∧ (0 < nth i weights 0)%Q ∧ i < length weights.
Proof.
  unfold random_choices.
  destruct (negb _) eqn:Hlen; [ discriminate | ].
  apply negb_false_iff, Nat.eqb_eq in Hlen. rewrite accumulate_length in Hlen.
  destruct (last _) as [total | ] eqn:Hlast; [ | discriminate ].
  destruct (Qle_bool total 0) eqn:Htotal; [ discriminate | ].
  assert (Hpos : (0 < total)%Q).
  { apply Qnot_le_lt. intros Hle. apply Qle_bool_iff in Hle. congruence. }
  run.
  destruct (unit_draw (entropy w (cursor w))) as [Hu0 Hu1].
  set (u := (Z.of_N (entropy w (cursor w) mod 2 ^ 53) # 2 ^ 53)%Q) in *.
  set (idx := bisect (accumulate weights) (u * total) 0 (length population - 1)).
  destruct (population !! idx) as [y | ] eqn:Hy; [ | discriminate ].
  intros [= <- _].
  assert (Hne : length weights ≠ 0).
  { intros Hz. destruct weights; [ discriminate | simpl in Hz; lia ]. }
  apply last_nth in Hlast. rewrite accumulate_length in Hlast.
  destruct (bisect_loop_lands (length population - 1 - 0) (accumulate weights)
              (u * total)%Q 0 (length population - 1))
    as (Hr & Hbelow & Habove); [ lia | lia | now left | | ].
  { rewrite <- Hlen, Hlast. rewrite <- (Qmult_1_l total) at 2.
    now apply Qmult_lt_compat_r. }
  change (bisect_loop (length population - 1 - 0) (accumulate weights)
            (u * total)%Q 0 (length population - 1)) with idx in *.
  assert (Hx0 : (0 <= u * total)%Q).
  { apply Qmult_le_0_compat; [ exact Hu0 | now apply Qlt_le_weak ]. }
  exists idx. split; [ exact Hy | ]. split; [ | lia ].
  rewrite accumulate_nth in Habove by lia.
  destruct idx as [ | j ].
  - eapply Qle_lt_trans; eauto.
  - destruct Hbelow as [Hz | Hbelow]; [ discriminate | ].
    replace (S j - 1) with j in Hbelow by lia.
    apply (Qplus_lt_l _ _ (nth j (accumulate weights) 0%Q)).
    rewrite Qplus_0_l, (Qplus_comm (nth (S j) weights 0%Q)).
    eapply Qle_lt_trans; eauto.
Qed.

(** X11. Without smoothing ([alpha = 0]) a model reached by training only
    predicts what it has seen: on a recorded context [predict_next_word]
    returns, after one draw, a token that followed that context in the
    training data at least once. *)
Theorem unsmoothed_predicts_followers self context word_counts w :
  reachable self -> (alpha self == 0)%Q ->
  transitions self !! context = Some word_counts ->
  exists word c,
    predict_next_word self context w = (Ret (Some word), advance w)
    ∧ word_counts !! word = Some c ∧ (1 <= c)%Z.
Proof.
  intros Hreach Halpha Hrow.
  pose proof (reachable_invariant self Hreach) as Hinv.
  assert (Halpha' : (0 <= alpha self)%Q) by (rewrite Halpha; apply Qle_refl).
  pose proof (denominator_positive self context word_counts Hinv Halpha' Hrow) as Hden.
  destruct (inv_table self Hinv context word_counts Hrow) as (Hlen & Hne & Hcounts).
  destruct (predict_total self context w Hinv Halpha')
    as [(word & Hin & Hrun) | [Hempty Hrun]]; [ lia | | ].
  - exists word. pose proof Hrun as Hchoice.
    unfold predict_next_word in Hchoice.
    rewrite (predict_branch_key self context word_counts Hlen Hrow) in Hchoice.
    unfold probabilities in Hchoice.
    rewrite probabilities_loop_ok in Hchoice
      by (intros Hz; rewrite Hz in Hden; exact (Hden eq_refl)).
    unfold bind at 1, lift in Hchoice.
    rewrite map_fst_smoothed, map_snd_smoothed in Hchoice.
    unfold bind in Hchoice.
    destruct (random_choices _ _ w) as [[x | e] w1] eqn:Hx; [ | discriminate ].
    injection Hchoice as -> ->.
    apply random_choices_positive in Hx as (i & Hi & Hwt & Hlt).
    rewrite length_map in Hlt.
    rewrite (nth_indep _ _ (smoothed self word_counts "")) in Hwt
      by now rewrite length_map.
    rewrite (map_nth (fun word => smoothed self word_counts word)) in Hwt.
    rewrite (nth_lookup_Some _ _ "" _ Hi) in Hwt.
    destruct (word_counts !! word) as [c | ] eqn:Hc.
    + exists c. split; [ exact Hrun | ].
      split; [ reflexivity | now destruct (Hcounts word c Hc) ].
    + exfalso. unfold smoothed in Hwt. rewrite Hc in Hwt. simpl in Hwt.
      rewrite Halpha in Hwt. unfold Qdiv in Hwt.
      rewrite Qplus_0_l, Qmult_0_l in Hwt. exact (Qlt_irrefl 0%Q Hwt).
  - exfalso. apply map_choose in Hne as (word & c & Hc).
    destruct (Hcounts word c Hc) as [_ Hin]. rewrite Hempty in Hin.
    now apply not_elem_of_empty in Hin.
Qed.

Lemma train_cat_unsmoothed w :
  train (init 2 0) cat_text w = (Ret cat_model_unsmoothed, w).
Proof. vm_compute. reflexivity. Qed.

Lemma cat_model_unsmoothed_reachable : reachable cat_model_unsmoothed.
Proof.
  eapply reachable_train; [ apply (reachable_init 2 0) | ].
  apply (train_cat_unsmoothed (world0 tape0)).
Qed.

Lemma unsmoothed_predicts_followers_witness :
  exists word c,
    predict_next_word cat_model_unsmoothed ["the"; "cat"] (world0 tape0)
    = (Ret (Some word), advance (world0 tape0))
    ∧ ({[ "sat" := 1%Z; "ran" := 1%Z ]} : gmap string Z) !! word = Some c
    ∧ (1 <= c)%Z.
Proof.
  apply (unsmoothed_predicts_followers cat_model_unsmoothed ["the"; "cat"]).
  - apply cat_model_unsmoothed_reachable.
  - vm_compute. reflexivity.
  - vm_compute. reflexivity.
Defined.

(** ** Generation *)

Lemma pad_seed_shape self rounds : forall sentence w,
  invariant self -> starting_ngrams self ≠ [] ->
  length sentence + rounds = n self ->
  exists pad w',
    pad_seed self rounds sentence w = (Ret (sentence ++ pad), w')
    ∧ length pad = rounds
    ∧ Forall (fun t => t ∈ vocabulary self) pad.
Proof.
  induction rounds as [ | rounds IH ]; intros sentence w Hinv Hstart Hlen.
  - exists [], w. rewrite app_nil_r. simpl. repeat split. constructor.
  - simpl. unfold bind at 1.
    destruct (random_choice_ok (starting_ngrams self) w Hstart) as (g & Hg & Hrun).
    rewrite Hrun.
    pose proof (inv_start_length self Hinv) as Hlens.
    rewrite Forall_forall in Hlens. specialize (Hlens g Hg).
    destruct (lookup_lt_is_Some_2 g (length sentence)) as [word Hword]; [ lia | ].
    rewrite Hword.
    destruct (IH (sentence ++ [word]) (advance w) Hinv Hstart)
      as (pad & w' & Hpad & Hn & Hvocab).
    { rewrite length_app. simpl. lia. }
    exists (word :: pad), w'.
    rewrite <- app_assoc in Hpad. split; [ exact Hpad | ].
    split; [ simpl; lia | ].
    constructor; [ | exact Hvocab ].
    pose proof (inv_start_tokens self Hinv) as Htok.
    rewrite Forall_forall in Htok. specialize (Htok g Hg).
    rewrite Forall_forall in Htok. apply Htok.
    eapply list_elem_of_lookup_2; eauto.
Qed.

Lemma seed_sentence_shape self start_words w :
  invariant self -> transitions self ≠ ∅ -> 1 <= n self ->
  exists initial w',
    seed_sentence self start_words w = (Ret (Sentence initial), w')
    ∧ length initial = n self
    ∧ seeded_from self start_words initial.
Proof.
  intros Hinv Htrained Hn. unfold seed_sentence, seeded_from.
  rewrite (bool_decide_eq_false_2 _ Htrained).
  pose proof (inv_start_trained self Hinv Htrained) as Hstart.
  rewrite (bool_decide_eq_false_2 _ Hstart).
  destruct start_words as [seed | ].
  - destruct (length seed <? n self) eqn:Hshort.
    + apply Nat.ltb_lt in Hshort.
      destruct (pad_seed_shape self (n self - length seed) seed w Hinv Hstart)
        as (pad & w' & Hpad & Hlen & Hvocab); [ lia | ].
      unfold bind. rewrite Hpad. run.
      eexists _, w'. split; [ reflexivity | ].
      split; [ rewrite length_app; lia | eauto ].
    + apply Nat.ltb_ge in Hshort. run.
      destruct (n self <? length seed) eqn:Hlong.
      * eexists _, w. split; [ reflexivity | ].
        split; [ apply last_n_length_pos; lia | reflexivity ].
      * apply Nat.ltb_ge in Hlong.
        eexists _, w. split; [ reflexivity | ].
        split; [ lia | symmetry; now apply last_n_all ].
  - destruct (random_choice_ok (starting_ngrams self) w Hstart) as (g & Hg & Hrun).
    unfold bind. rewrite Hrun. run.
    exists g, (advance w). split; [ reflexivity | ]. split; [ | exact Hg ].
    pose proof (inv_start_length self Hinv) as Hlens.
    rewrite Forall_forall in Hlens. now apply Hlens.
Qed.

Lemma extend_shape self rounds : forall sentence w,
  invariant self -> (0 <= alpha self)%Q -> vocabulary self ≠ ∅ ->
  n self <= length sentence ->
  exists rest w',
    extend self rounds sentence w = (Ret (sentence ++ rest), w')
    ∧ length rest = rounds
    ∧ Forall (fun t => t ∈ vocabulary self) rest.
Proof.
  induction rounds as [ | rounds IH ]; intros sentence w Hinv Halpha Hvocab Hlen.
  - exists [], w. rewrite app_nil_r. simpl. repeat split. constructor.
  - simpl. unfold bind at 1.
    pose proof (last_n_length (n self) sentence Hlen) as Hcontext.
    destruct (predict_total self (last_n (n self) sentence) w Hinv Halpha Hcontext)
      as [(word & Hin & Hrun) | (Hempty & _)]; [ | contradiction ].
    rewrite Hrun.
    destruct (IH (sentence ++ [word]) (advance w) Hinv Halpha Hvocab)
      as (rest & w' & Hext & Hn & Hrest).
    { rewrite length_app. lia. }
    exists (word :: rest), w'.
    rewrite <- app_assoc in Hext. split; [ exact Hext | ].
    split; [ simpl; lia | now constructor ].
Qed.

(** What [generate_sentence] returns on a trained, reachable model. *)
Lemma generate_sentence_trained self start_words max_length w :
  invariant self -> transitions self ≠ ∅ -> 1 <= n self -> (0 <= alpha self)%Q ->
  exists initial rest w',
    generate_sentence self start_words max_length w
    = (Ret (join " " (initial ++ rest)), w')
    ∧ length initial = n self
    ∧ seeded_from self start_words initial
    ∧ length rest = Z.to_nat (max_length - Z.of_nat (n self))
    ∧ Forall (fun t => t ∈ vocabulary self) rest.
Proof.
  intros Hinv Htrained Hn Halpha.
  destruct (seed_sentence_shape self start_words w Hinv Htrained Hn)
    as (initial & w1 & Hseed & Hlen & Hshape).
  assert (Hvocab : vocabulary self ≠ ∅).
  { apply (inv_start_vocabulary self Hinv), (inv_start_trained self Hinv Htrained). }
  destruct (extend_shape self (Z.to_nat (max_length - Z.of_nat (length initial)))
              initial w1 Hinv Halpha Hvocab) as (rest & w2 & Hext & Hrest & Hin);
    [ lia | ].
  exists initial, rest, w2.
  split; [ | rewrite <- Hlen; auto ].
  unfold generate_sentence, bind at 1. rewrite Hseed.
  unfold bind. now rewrite Hext.
Qed.

Lemma count_tokens_from_true_spaceless s :
  spaceless s -> count_tokens_from true s = 0.
Proof.
  unfold spaceless. induction s as [ | c s IH ]; intros Hs; [ reflexivity | ].
  simpl in Hs. apply andb_true_iff in Hs as [Hc Hs].
  apply negb_true_iff in Hc. simpl. rewrite Hc. simpl. auto.
Qed.

Lemma count_tokens_from_cons c s inside :
  Ascii.eqb c " "%char = false ->
  count_tokens_from inside (String c s)
  = (if inside then 0 else 1) + count_tokens_from true s.
Proof. intros Hc. simpl. now rewrite Hc. Qed.

Lemma count_tokens_join_plain l :
  Forall plain_token l -> count_tokens (join " " l) = length l.
Proof.
  unfold count_tokens, join.
  induction 1 as [ | t l [Hne Hs] Hl IH ]; [ reflexivity | ].
  destruct t as [ | c t ]; [ contradiction | ].
  simpl in Hs. apply andb_true_iff in Hs as [Hc Hs]. apply negb_true_iff in Hc.
  destruct l as [ | t' l' ].
  - change (String.concat " " [String c t]) with (String c t).
    rewrite count_tokens_from_cons by exact Hc.
    now rewrite count_tokens_from_true_spaceless.
  - change (String.concat " " (String c t :: t' :: l'))
      with (String c (t +:+ String " "%char (String.concat " " (t' :: l')))).
    rewrite count_tokens_from_cons by exact Hc.
    rewrite (count_tokens_from_inside t _ Hs), IH. reflexivity.
Qed.

(** X12. Generation never stops early on a trained model.  For a model
    reached by training with a non-empty table, [n >= 1] and [alpha >= 0],
    [generate_sentence] returns [" ".join(initial + rest)]: [initial] has
    [n] tokens and is a Starting Context (no seed), the seed followed by
    padding tokens (short seed) or the last [n] tokens of the seed; [rest]
    has exactly [max(0, max_length - n)] tokens, all from the Vocabulary. *)
Theorem generate_sentence_shape self start_words max_length w :
  reachable self -> transitions self ≠ ∅ -> 1 <= n self -> (0 <= alpha self)%Q ->
  exists initial rest w',
    generate_sentence self start_words max_length w
    = (Ret (join " " (initial ++ rest)), w')
    ∧ length initial = n self
    ∧ seeded_from self start_words initial
    ∧ length rest = Z.to_nat (max_length - Z.of_nat (n self))
    ∧ Forall (fun t => t ∈ vocabulary self) rest.
Proof.
  intros Hreach. apply generate_sentence_trained. now apply reachable_invariant.
Qed.

Lemma generate_sentence_shape_witness :
  exists initial rest w',
    generate_sentence cat_model (Some ["a"; "the"; "cat"]) 5 (world0 tape0)
    = (Ret (join " " (initial ++ rest)), w')
    ∧ length initial = n cat_model
    ∧ seeded_from cat_model (Some ["a"; "the"; "cat"]) initial
    ∧ length rest = Z.to_nat (5 - Z.of_nat (n cat_model))
    ∧ Forall (fun t => t ∈ vocabulary cat_model) rest.
Proof.
  apply (generate_sentence_shape cat_model (Some ["a"; "the"; "cat"]) 5 (world0 tape0)).
  - apply cat_model_reachable.
  - vm_compute. discriminate.
  - vm_compute. lia.
  - vm_compute. discriminate.
Defined.

(** X13. Exact length: under the same conditions, and when the tokens of
    the seed are non-empty and contain no space, the string returned by
    [generate_sentence] has exactly [max(max_length, n)] space-separated
    tokens. *)
Theorem generate_sentence_exact_length self start_words max_length w :
  reachable self -> transitions self ≠ ∅ -> 1 <= n self -> (0 <= alpha self)%Q ->
  (forall seed, start_words = Some seed -> Forall plain_token seed) ->
  exists s w',
    generate_sentence self start_words max_length w = (Ret s, w')
    ∧ Z.of_nat (count_tokens s) = Z.max max_length (Z.of_nat (n self)).
Proof.
  intros Hreach Htrained Hn Halpha Hseed.
  pose proof (reachable_invariant self Hreach) as Hinv.
  destruct (generate_sentence_trained self start_words max_length w
              Hinv Htrained Hn Halpha)
    as (initial & rest & w' & Hgen & Hlen & Hshape & Hrest & Hin).
  exists (join " " (initial ++ rest)), w'. split; [ exact Hgen | ].
  assert (Hvocab : forall l, Forall (fun t => t ∈ vocabulary self) l ->
                             Forall plain_token l).
  { intros l Hl. eapply Forall_impl; [ exact Hl | apply (inv_plain self Hinv) ]. }
  rewrite count_tokens_join_plain.
  - rewrite length_app. lia.
  - apply Forall_app. split; [ | now apply Hvocab ].
    unfold seeded_from in Hshape. destruct start_words as [seed | ].
    + specialize (Hseed seed eq_refl).
      destruct (length seed <? n self).
      * destruct Hshape as (pad & -> & Hpad).
        apply Forall_app. split; [ exact Hseed | now apply Hvocab ].
      * rewrite Hshape. now apply last_n_Forall.
    + apply Hvocab.
      pose proof (inv_start_tokens self Hinv) as Htok.
      rewrite Forall_forall in Htok. now apply Htok.
Qed.

Lemma generate_sentence_exact_length_witness :
  exists s w',
    generate_sentence cat_model None 25 (world0 tape0) = (Ret s, w')
    ∧ Z.of_nat (count_tokens s) = Z.max 25 (Z.of_nat (n cat_model)).
Proof.
  apply (generate_sentence_exact_length cat_model None 25 (world0 tape0)).
  - apply cat_model_reachable.
  - vm_compute. discriminate.
  - vm_compute. lia.
  - vm_compute. discriminate.
  - intros seed Hseed. discriminate Hseed.
Defined.

(** X14. In a model reached by training the seeding phase of
    [generate_sentence] never raises, and the only sentinel it can return
    is ["Model not trained yet."], exactly when the table is empty: the
    line that returns ["Model not trained properly."] is never reached. *)
Theorem sentinel_only_when_untrained self start_words w :
  reachable self ->
  exists outcome w',
    seed_sentence self start_words w = (Ret outcome, w')
    ∧ (transitions self = ∅ -> outcome = Return "Model not trained yet.")
    ∧ (transitions self ≠ ∅ -> exists initial, outcome = Sentence initial).
Proof.
  intros Hreach. pose proof (reachable_invariant self Hreach) as Hinv.
  destruct (seed_sentence_returns self start_words w Hinv)
    as (outcome & w' & Hrun).
  exists outcome, w'. split; [ exact Hrun | ].
  unfold seed_sentence in Hrun. split.
  - intros Hempty. rewrite (bool_decide_eq_true_2 _ Hempty) in Hrun.
    now injection Hrun as <- _.
  - intros Htrained. rewrite (bool_decide_eq_false_2 _ Htrained) in Hrun.
    pose proof (inv_start_trained self Hinv Htrained) as Hstart.
    rewrite (bool_decide_eq_false_2 _ Hstart) in Hrun.
    destruct start_words as [seed | ].
    + destruct (length seed <? n self).
      * unfold bind in Hrun.
        destruct (pad_seed self _ seed w) as [[padded | e] w1]; [ | discriminate ].
        injection Hrun as <- _. eauto.
      * injection Hrun as <- _. eauto.
    + unfold bind in Hrun.
      destruct (random_choice _ w) as [[g | e] w1]; [ | discriminate ].
      injection Hrun as <- _. eauto.
Qed.

Lemma sentinel_only_when_untrained_witness :
  exists outcome w',
    seed_sentence cat_model (Some ["the"]) (world0 tape0) = (Ret outcome, w')
    ∧ (transitions cat_model = ∅ -> outcome = Return "Model not trained yet.")
    ∧ (transitions cat_model ≠ ∅ -> exists initial, outcome = Sentence initial).
Proof.
  apply (sentinel_only_when_untrained cat_model (Some ["the"]) (world0 tape0)).
  apply cat_model_reachable.
Defined.

(** ** The file wrapper and the script *)

(** X15. [train_on_file] never raises and returns [True] exactly when the
    file can be read; then the model is the one [train] yields on its
    text.  When the file cannot be read it returns [False], prints nothing
    and leaves the model as it was.  A reachable model stays reachable. *)
Theorem train_on_file_flag files self file_path w :
  exists self' flag w',
    train_on_file files self file_path w = (Ret (self', flag), w')
    ∧ (flag = true <-> is_Some (files file_path))
    ∧ (forall text, files file_path = Some text ->
         train self text w = (Ret self', w'))
    ∧ (files file_path = None -> self' = self ∧ w' = w)
    ∧ (reachable self -> reachable self').
Proof.
  unfold train_on_file. destruct (files file_path) as [text | ] eqn:Hfile.
  - destruct (train_returns self text w) as (self' & w' & Htrain).
    exists self', true, w'. rewrite Htrain.
    split; [ reflexivity | ]. split; [ split; eauto | ].
    split; [ now intros text' [= <-] | ]. split; [ discriminate | ].
    intros Hreach. eapply reachable_train; eauto.
  - exists self, false, w. split; [ reflexivity | ].
    split; [ split; [ discriminate | intros [? ?]; discriminate ] | ].
    split; [ discriminate | ]. split; auto.
Qed.

Lemma bind_stdout {A B} (c : M A) (k : A -> M B) w :
  stdout (snd (c w)) = stdout w ->
  (forall a, fst (c w) = Ret a ->
     stdout (snd (k a (snd (c w)))) = stdout (snd (c w))) ->
  stdout (snd ((x <- c ;; k x) w)) = stdout w.
Proof.
  unfold bind. destruct (c w) as [[a | e] w1]; simpl; intros Hc Hk.
  - rewrite <- Hc. now apply Hk.
  - exact Hc.
Qed.

Lemma random_choice_stdout {A} (seq : list A) w :
  stdout (snd (random_choice seq w)) = stdout w.
Proof. destruct (random_choice_world seq w) as [-> | ->]; reflexivity. Qed.

Lemma pad_seed_stdout self rounds : forall sentence w,
  stdout (snd (pad_seed self rounds sentence w)) = stdout w.
Proof.
  induction rounds as [ | rounds IH ]; intros sentence w; [ reflexivity | ].
  simpl. apply bind_stdout; [ apply random_choice_stdout | ].
  intros g _. destruct (g !! length sentence); [ apply IH | reflexivity ].
Qed.

Lemma seed_sentence_stdout self start_words w :
  stdout (snd (seed_sentence self start_words w)) = stdout w.
Proof.
  unfold seed_sentence.
  destruct (bool_decide (transitions self = ∅)); [ reflexivity | ].
  destruct start_words as [seed | ].
  - destruct (length seed <? n self); [ | reflexivity ].
    destruct (bool_decide (starting_ngrams self = [])); [ reflexivity | ].
    apply bind_stdout; [ apply pad_seed_stdout | reflexivity ].
  - destruct (bool_decide (starting_ngrams self = [])); [ reflexivity | ].
    apply bind_stdout; [ apply random_choice_stdout | reflexivity ].
Qed.

Lemma predict_next_word_stdout self context w :
  n self <= length context ->
  stdout (snd (predict_next_word self context w)) = stdout w.
Proof.
  intros Hlen.
  destruct (predict_next_word_world self context w)
    as [[Hshort _] | [_ [-> | ->]]]; [ lia | | ]; reflexivity.
Qed.

Lemma extend_stdout self rounds : forall sentence w,
  n self <= length sentence ->
  stdout (snd (extend self rounds sentence w)) = stdout w.
Proof.
  induction rounds as [ | rounds IH ]; intros sentence w Hlen; [ reflexivity | ].
  simpl. apply bind_stdout.
  - apply predict_next_word_stdout. now apply last_n_length.
  - intros [word | ] _; [ | reflexivity ].
    apply IH. rewrite length_app. lia.
Qed.

Lemma generate_sentence_stdout self start_words max_length w :
  invariant self -> 1 <= n self ->
  stdout (snd (generate_sentence self start_words max_length w)) = stdout w.
Proof.
  intros Hinv Hn. unfold generate_sentence.
  apply bind_stdout; [ apply seed_sentence_stdout | ].
  intros [s | sentence] Hseeded; [ reflexivity | ].
  apply bind_stdout; [ | reflexivity ].
  apply extend_stdout.
  destruct (decide (transitions self = ∅)) as [Hempty | Htrained].
  - unfold seed_sentence in Hseeded.
    rewrite (bool_decide_eq_true_2 _ Hempty) in Hseeded. discriminate.
  - destruct (seed_sentence_shape self start_words w Hinv Htrained Hn)
      as (initial & w1 & Hrun & Hlen & _).
    rewrite Hrun in Hseeded. injection Hseeded as <-. lia.
Qed.

(** X17. On a model reached by training, with [n >= 1], [generate_sentence]
    prints nothing: every context it passes to [predict_next_word] has [n]
    tokens, so the warning for a short context never appears. *)
Theorem generate_sentence_prints_nothing self start_words max_length w :
  reachable self -> 1 <= n self ->
  stdout (snd (generate_sentence self start_words max_length w)) = stdout w.
Proof.
  intros Hreach. apply generate_sentence_stdout. now apply reachable_invariant.
Qed.

Lemma generate_sentence_prints_nothing_witness :
  stdout (snd (generate_sentence cat_model (Some ["the"]) 5 (world0 tape0))) = [].
Proof.
  apply (generate_sentence_prints_nothing cat_model (Some ["the"]) 5 (world0 tape0)).
  - apply cat_model_reachable.
  - vm_compute. lia.
Defined.

Lemma generate_sentence_empty_table self start_words max_length w :
  transitions self = ∅ ->
  generate_sentence self start_words max_length w
  = (Ret "Model not trained yet.", w).
Proof.
  intros Hempty. unfold generate_sentence, seed_sentence.
  rewrite (bool_decide_eq_true_2 _ Hempty). reflexivity.
Qed.

(** The script after [train_on_file] has produced the model [model]. *)
Lemma main_tail model w1 s w2 :
  generate_sentence model None 25 w1 = (Ret s, w2) ->
  (sentence <- generate_sentence model None 25 ;; print sentence) w1
  = (Ret tt, World (entropy w2) (cursor w2) (stdout w2 ++ [s])).
Proof. intros Hgen. unfold bind. rewrite Hgen. reflexivity. Qed.

(** X16. The script never raises and prints one final line.  When the data
    file cannot be read, or holds fewer than 4 tokens (then after the
    warning of [train]), that line is ["Model not trained yet."];
    otherwise nothing else is printed and the line is a sentence of exactly
    25 space-separated tokens. *)
Theorem main_prints_one_sentence files w :
  exists line w',
    main files w = (Ret tt, w')
    ∧ match files dataset_path with
      | None =>
          stdout w' = stdout w ++ [line] ∧ line = "Model not trained yet."
      | Some text =>
          if length (findall_words (lower text)) <? 4
          then stdout w'
               = stdout w ++ ["Warning: Text too short to train 3-gram model"; line]
               ∧ line = "Model not trained yet."
          else stdout w' = stdout w ++ [line] ∧ count_tokens line = 25
      end.
Proof.
  unfold main, train_on_file.
  destruct (files dataset_path) as [text | ] eqn:Hfile.
  - destruct (length (findall_words (lower text)) <? 4) eqn:Hlen.
    + apply Nat.ltb_lt in Hlen.
      eexists _, _. split.
      * unfold bind at 1. rewrite train_short by (simpl; lia).
        simpl fst. apply main_tail.
        now apply generate_sentence_empty_table.
      * simpl. rewrite <- app_assoc. split; reflexivity.
    + apply Nat.ltb_ge in Hlen.
      destruct (train_returns (init 3 (1 # 10000)) text w) as (model & w1 & Htrain).
      pose proof Htrain as Hlong. rewrite train_long in Hlong by (simpl; lia).
      injection Hlong as Hmodel Hw1. subst w1.
      assert (Hreach : reachable model).
      { eapply reachable_train; [ apply (reachable_init 3 (1 # 10000)) | exact Htrain ]. }
      assert (Hn : n model = 3) by (now rewrite <- Hmodel).
      assert (Halpha : (0 <= alpha model)%Q) by (now rewrite <- Hmodel).
      assert (Htrained : transitions model ≠ ∅).
      { rewrite <- Hmodel. simpl. apply record_not_empty.
        unfold spec_transitions.
        destruct (length (findall_words (lower text)) - 3) eqn:Hk; [ lia | ].
        discriminate. }
      destruct (generate_sentence_trained model None 25 w
                  (reachable_invariant model Hreach) Htrained)
        as (initial & rest & w2 & Hgen & Hinit & Hshape & Hrest & Hin);
        [ lia | exact Halpha | ].
      eexists _, _. split.
      * unfold bind at 1. rewrite Htrain. simpl fst.
        apply main_tail. exact Hgen.
      * simpl stdout. split.
        -- pose proof (generate_sentence_stdout model None 25 w
                         (reachable_invariant model Hreach)) as Hquiet.
           rewrite Hgen in Hquiet. simpl in Hquiet.
           rewrite Hquiet by lia. reflexivity.
        -- pose proof (reachable_invariant model Hreach) as Hinv.
           assert (Hvocab : forall l, Forall (fun t => t ∈ vocabulary model) l ->
                                      Forall plain_token l).
           { intros l Hl. eapply Forall_impl; [ exact Hl | apply (inv_plain model Hinv) ]. }
           rewrite count_tokens_join_plain.
           ++ rewrite length_app, Hinit, Hrest, Hn. reflexivity.
           ++ apply Forall_app. split; [ | now apply Hvocab ].
              apply Hvocab.
              pose proof (inv_start_tokens model Hinv) as Htok.
              rewrite Forall_forall in Htok. now apply Htok.
  - eexists _, _. split.
    + unfold bind at 1. simpl fst. apply main_tail.
      now apply generate_sentence_empty_table.
    + simpl. split; reflexivity.
Qed.

